(** * Flask-Blog: the data-access layer [BlogDatabase] of blog_db.py

    A shallow embedding of the class [BlogDatabase] (src/blog_db.py) and of
    the part of the SQL engine its statements rely on, followed by the
    properties the specification states about it.

    The three tables are lists of rows kept in scan order (ascending rowid,
    which is the order in which the engine's table scan returns them); the
    connection is the value of type [db] threaded through every method.
    A method is a computation in the monad [M]: it returns a value or raises
    a Python exception, and leaves a store behind in both cases.

    What is taken from the engine rather than from the Python text:
    - [INTEGER PRIMARY KEY] without AUTOINCREMENT: a row inserted without an
      explicit key receives 1 in an empty table and otherwise one more than
      the largest key present ([next_rowid]).  Keys are unbounded integers
      here; the engine's 64-bit ceiling is outside the model.
    - The driver binds a Python int parameter as a signed 64-bit integer
      and raises OverflowError when it does not fit.  The functions named
      after the methods that take an id are the statements run with the key
      once bound; the methods as called with any Python int are in the
      module [BlogDatabase].
    - A Python str is its UTF-8 text: equality is equality of the bytes,
      [len] counts code points.
    - [INSERT OR IGNORE] on a [UNIQUE] column skips the row when the value is
      already present.
    - [PRAGMA foreign_keys = 1] (issued by [__init__]) with the default
      [NO ACTION]: a statement that would leave a child row pointing at a
      deleted parent, or insert a child without a parent, fails and changes
      nothing; sqlite3 raises IntegrityError. *)

From Stdlib Require Import ZArith List String Bool Lia Sorted.
Import ListNotations.
Open Scope Z_scope.

(** ** Rows and records *)

Module Topic.
Record row := mk { topic_id : Z; topic : string }.
End Topic.

Module Author.
Record row := mk { author_id : Z; name : string }.
End Author.

Module Entry.
Record row := mk {
  entry_id : Z; title : string; content : string;
  author_id : Z; topic_id : Z }.
End Entry.

(** The dictionary built from one row of the three-way join. *)
Module EntryDict.
Record t := mk {
  entry_id : Z; title : string; content : string;
  author : string; author_id : Z;
  topic : string; topic_id : Z }.
End EntryDict.

(** ** The store *)

Record db := mkdb {
  topics : list Topic.row;
  authors : list Author.row;
  entries : list Entry.row }.

(** [create_tables]: three empty tables. *)
Definition create_tables : db := mkdb [] [] [].

Definition set_topics (l : list Topic.row) (s : db) : db :=
  mkdb l (authors s) (entries s).
Definition set_authors (l : list Author.row) (s : db) : db :=
  mkdb (topics s) l (entries s).
Definition set_entries (l : list Entry.row) (s : db) : db :=
  mkdb (topics s) (authors s) l.

Definition topic_ids (s : db) : list Z := map Topic.topic_id (topics s).
Definition author_ids (s : db) : list Z := map Author.author_id (authors s).
Definition entry_ids (s : db) : list Z := map Entry.entry_id (entries s).

(** ** Exceptions and the method monad *)

Inductive exn := IntegrityError | TypeError | OverflowError.

Inductive outcome (A : Type) :=
| Returns (a : A)
| Raises (e : exn).
Arguments Returns {A} a.
Arguments Raises {A} e.

Definition M (A : Type) : Type := db -> outcome A * db.

Definition ret {A} (a : A) : M A := fun s => (Returns a, s).
Definition raise {A} (e : exn) : M A := fun s => (Raises e, s).
Definition bind {A B} (m : M A) (k : A -> M B) : M B :=
  fun s =>
    match m s with
    | (Returns a, s') => k a s'
    | (Raises e, s') => (Raises e, s')
    end.
(** A SELECT: reads the store, never changes it. *)
Definition query {A} (q : db -> A) : M A := fun s => (Returns (q s), s).

Declare Scope blog_scope.
Delimit Scope blog_scope with blog.
Notation "x <- m ;; k" := (bind m (fun x => k))
  (at level 100, m at next level, right associativity) : blog_scope.
Notation "m ;;; k" := (bind m (fun _ => k))
  (at level 100, right associativity) : blog_scope.
Open Scope blog_scope.

(** ** The engine *)

(** Key given to a row inserted without one. *)
Definition next_rowid (ids : list Z) : Z :=
  match ids with
  | [] => 1
  | i :: rest => fold_left Z.max rest i + 1
  end.

(** [row_to_dict]: [fetchone] on the cursor; None when there is no row. *)
Definition row_to_dict {A} (cur : list A) : option A :=
  match cur with
  | [] => None
  | row :: _ => Some row
  end.

(** [d['key']] on the result of [row_to_dict]: subscripting None raises. *)
Definition subscript {A B} (d : option A) (key : A -> B) : M B :=
  match d with
  | Some r => ret (key r)
  | None => raise TypeError
  end.

(** ** Topics *)

Definition get_all_topics (s : db) : list Topic.row := topics s.

Definition get_topic_by_id (topic_id : Z) (s : db) : option Topic.row :=
  row_to_dict (filter (fun r => Topic.topic_id r =? topic_id) (topics s)).

Definition get_topic_by_name (topic_name : string) (s : db)
  : option Topic.row :=
  row_to_dict (filter (fun r => String.eqb (Topic.topic r) topic_name)
                 (topics s)).

(** INSERT OR IGNORE INTO topic(topic) VALUES(?) *)
Definition insert_or_ignore_topic (topic : string) : M unit :=
  fun s =>
    if existsb (fun r => String.eqb (Topic.topic r) topic) (topics s)
    then (Returns tt, s)
    else (Returns tt,
          set_topics
            (topics s ++ [Topic.mk (next_rowid (topic_ids s)) topic]) s).

Definition insert_topic (topic : string) : M (option Topic.row) :=
  insert_or_ignore_topic topic ;;;
  query (get_topic_by_name topic).

(** DELETE FROM topic WHERE topic_id = ?  The rows to delete are the
    parents; the statement fails when an entry still points at one. *)
Definition delete_topic (topic_id : Z) : M unit :=
  fun s =>
    let doomed := filter (fun r => Topic.topic_id r =? topic_id) (topics s) in
    if existsb
         (fun p => existsb
                     (fun e => Entry.topic_id e =? Topic.topic_id p)
                     (entries s))
         doomed
    then (Raises IntegrityError, s)
    else (Returns tt,
          set_topics
            (filter (fun r => negb (Topic.topic_id r =? topic_id))
               (topics s)) s).

(** ** Authors *)

Definition get_all_authors (s : db) : list Author.row := authors s.

Definition get_author_by_id (author_id : Z) (s : db) : option Author.row :=
  row_to_dict (filter (fun r => Author.author_id r =? author_id) (authors s)).

Definition get_author_by_name (name : string) (s : db) : option Author.row :=
  row_to_dict (filter (fun r => String.eqb (Author.name r) name) (authors s)).

(** INSERT OR IGNORE INTO author(name) VALUES(?) *)
Definition insert_or_ignore_author (name : string) : M unit :=
  fun s =>
    if existsb (fun r => String.eqb (Author.name r) name) (authors s)
    then (Returns tt, s)
    else (Returns tt,
          set_authors
            (authors s ++ [Author.mk (next_rowid (author_ids s)) name]) s).

Definition insert_author (name : string) : M (option Author.row) :=
  insert_or_ignore_author name ;;;
  query (get_author_by_name name).

(** DELETE FROM author WHERE author_id = ? *)
Definition delete_author (author_id : Z) : M unit :=
  fun s =>
    let doomed :=
      filter (fun r => Author.author_id r =? author_id) (authors s) in
    if existsb
         (fun p => existsb
                     (fun e => Entry.author_id e =? Author.author_id p)
                     (entries s))
         doomed
    then (Raises IntegrityError, s)
    else (Returns tt,
          set_authors
            (filter (fun r => negb (Author.author_id r =? author_id))
               (authors s)) s).

(** ** Entries *)

(** One row of SELECT ... FROM entry, author, topic. *)
Definition joined (e : Entry.row) (a : Author.row) (t : Topic.row)
  : EntryDict.t :=
  EntryDict.mk (Entry.entry_id e) (Entry.title e) (Entry.content e)
    (Author.name a) (Author.author_id a)
    (Topic.topic t) (Topic.topic_id t).

(** The rows the join yields for one entry:
    WHERE author.author_id = entry.author_id
      AND topic.topic_id = entry.topic_id *)
Definition join_rows (s : db) (e : Entry.row) : list EntryDict.t :=
  flat_map
    (fun a =>
       flat_map
         (fun t =>
            if (Author.author_id a =? Entry.author_id e)
               && (Topic.topic_id t =? Entry.topic_id e)
            then [joined e a t] else [])
         (topics s))
    (authors s).

Definition entry_join (s : db) : list EntryDict.t :=
  flat_map (join_rows s) (entries s).

Definition get_all_entries (s : db) : list EntryDict.t := entry_join s.

(** The same join with AND entry_id = ? *)
Definition get_entry_by_id (entry_id : Z) (s : db) : option EntryDict.t :=
  row_to_dict
    (filter (fun d => EntryDict.entry_id d =? entry_id) (entry_join s)).

(** INSERT INTO entry(title, content, author_id, topic_id) VALUES(?,?,?,?)
    Both parents must exist.  The value is the cursor's [lastrowid]. *)
Definition insert_into_entry (title content : string) (author_id topic_id : Z)
  : M Z :=
  fun s =>
    if existsb (fun a => Author.author_id a =? author_id) (authors s)
       && existsb (fun t => Topic.topic_id t =? topic_id) (topics s)
    then
      let lastrowid := next_rowid (entry_ids s) in
      (Returns lastrowid,
       set_entries
         (entries s ++ [Entry.mk lastrowid title content author_id topic_id])
         s)
    else (Raises IntegrityError, s).

Definition insert_entry (title content author topic : string)
  : M (option EntryDict.t) :=
  insert_author author ;;;
  author_dict <- query (get_author_by_name author) ;;
  author_id <- subscript author_dict Author.author_id ;;
  insert_topic topic ;;;
  topic_dict <- query (get_topic_by_name topic) ;;
  topic_id <- subscript topic_dict Topic.topic_id ;;
  lastrowid <- insert_into_entry title content author_id topic_id ;;
  query (get_entry_by_id lastrowid).

(** DELETE FROM entry WHERE entry_id = ?  No table references entry. *)
Definition delete_entry (entry_id : Z) : M unit :=
  fun s =>
    (Returns tt,
     set_entries
       (filter (fun e => negb (Entry.entry_id e =? entry_id)) (entries s)) s).

(** The store after the two get-or-create calls of [insert_entry]. *)
Definition resolved (author topic : string) (s : db) : db :=
  snd (insert_topic topic (snd (insert_author author s))).

(** Does an entry row point at this author (topic)? *)
Definition author_referenced (author_id : Z) (s : db) : bool :=
  existsb (fun e => Entry.author_id e =? author_id) (entries s).
Definition topic_referenced (topic_id : Z) (s : db) : bool :=
  existsb (fun e => Entry.topic_id e =? topic_id) (entries s).

Definition author_present (author_id : Z) (s : db) : bool :=
  existsb (fun r => Author.author_id r =? author_id) (authors s).
Definition topic_present (topic_id : Z) (s : db) : bool :=
  existsb (fun r => Topic.topic_id r =? topic_id) (topics s).

(** ** Sequences of calls *)

Inductive op :=
| InsertTopic (topic : string)
| InsertAuthor (name : string)
| InsertEntry (title content author topic : string)
| DeleteTopic (topic_id : Z)
| DeleteAuthor (author_id : Z)
| DeleteEntry (entry_id : Z).

Definition perform (o : op) : M unit :=
  match o with
  | InsertTopic n => insert_topic n ;;; ret tt
  | InsertAuthor n => insert_author n ;;; ret tt
  | InsertEntry t c a tp => insert_entry t c a tp ;;; ret tt
  | DeleteTopic i => delete_topic i
  | DeleteAuthor i => delete_author i
  | DeleteEntry i => delete_entry i
  end.

(** The store a call leaves behind, whether it returned or raised. *)
Definition exec (o : op) (s : db) : db := snd (perform o s).

Definition run (ops : list op) (s : db) : db :=
  fold_left (fun s o => exec o s) ops s.

(** The stores of one lifetime: those a sequence of calls builds from the
    freshly created tables. *)
Definition reachable (s : db) : Prop := exists ops, s = run ops create_tables.

Definition is_delete (o : op) : bool :=
  match o with
  | DeleteTopic _ | DeleteAuthor _ | DeleteEntry _ => true
  | _ => false
  end.

Definition is_insert_entry (o : op) : bool :=
  match o with
  | InsertEntry _ _ _ _ => true
  | _ => false
  end.

(** The keys a call assigns in one table: the keys of the rows it appended. *)
Definition assigned (ids : db -> list Z) (o : op) (s : db) : list Z :=
  skipn (List.length (ids s)) (ids (exec o s)).

(** The keys assigned in one table along a sequence of calls, oldest first. *)
Fixpoint id_log (ids : db -> list Z) (ops : list op) (s : db) : list Z :=
  match ops with
  | [] => []
  | o :: rest => assigned ids o s ++ id_log ids rest (exec o s)
  end.

(** The three kinds of row, for statements that hold of each. *)
Inductive kind := KTopic | KAuthor | KEntry.

Definition ids_of (k : kind) : db -> list Z :=
  match k with
  | KTopic => topic_ids
  | KAuthor => author_ids
  | KEntry => entry_ids
  end.

Definition delete (k : kind) : Z -> M unit :=
  match k with
  | KTopic => delete_topic
  | KAuthor => delete_author
  | KEntry => delete_entry
  end.

(** ** The schema's constraints

    PRIMARY KEY, UNIQUE and FOREIGN KEY of [create_tables], as a predicate
    on stores. *)
Record wf (s : db) : Prop := mkwf {
  topic_pk : NoDup (topic_ids s);
  topic_unique : NoDup (map Topic.topic (topics s));
  author_pk : NoDup (author_ids s);
  author_unique : NoDup (map Author.name (authors s));
  entry_pk : NoDup (entry_ids s);
  entry_author_fk :
    forall e, In e (entries s) -> In (Entry.author_id e) (author_ids s);
  entry_topic_fk :
    forall e, In e (entries s) -> In (Entry.topic_id e) (topic_ids s) }.

(** ** Stores used as concrete inputs *)

(** The scenario of the specification: one entry by Karen on Thoughts. *)
Definition karen : Author.row := Author.mk 1 "Karen".
Definition thoughts : Topic.row := Topic.mk 1 "Thoughts".
Definition hi_row : Entry.row := Entry.mk 1 "Hi" "Hi how are you" 1 1.
Definition hi_dict : EntryDict.t :=
  EntryDict.mk 1 "Hi" "Hi how are you" "Karen" 1 "Thoughts" 1.
Definition blog_hi : db := mkdb [thoughts] [karen] [hi_row].

Definition hi_ops : list op :=
  [InsertTopic "Thoughts"; InsertAuthor "Karen";
   InsertEntry "Hi" "Hi how are you" "Karen" "Thoughts"].

(** Create, delete, create again. *)
Definition reuse_ops : list op :=
  [InsertAuthor "Karen"; DeleteAuthor 1; InsertAuthor "Sam"].

(** ** The methods that take an id, called with any Python int

    [cur.execute(query, (id,))] converts the int to a 64-bit integer before
    the statement runs. *)

Definition in_int64 (n : Z) : bool :=
  (- 2 ^ 63 <=? n) && (n <=? 2 ^ 63 - 1).

Definition bind_int {A} (n : Z) (statement : M A) : M A :=
  if in_int64 n then statement else raise OverflowError.

Module BlogDatabase.

Definition get_topic_by_id (topic_id : Z) : M (option Topic.row) :=
  bind_int topic_id (query (get_topic_by_id topic_id)).

Definition delete_topic (topic_id : Z) : M unit :=
  bind_int topic_id (delete_topic topic_id).

Definition get_author_by_id (author_id : Z) : M (option Author.row) :=
  bind_int author_id (query (get_author_by_id author_id)).

Definition delete_author (author_id : Z) : M unit :=
  bind_int author_id (delete_author author_id).

Definition get_entry_by_id (entry_id : Z) : M (option EntryDict.t) :=
  bind_int entry_id (query (get_entry_by_id entry_id)).

Definition delete_entry (entry_id : Z) : M unit :=
  bind_int entry_id (delete_entry entry_id).

Definition delete (k : kind) : Z -> M unit :=
  match k with
  | KTopic => delete_topic
  | KAuthor => delete_author
  | KEntry => delete_entry
  end.

End BlogDatabase.

(** Does an entry row reference this id of the given kind?  No table
    references entry. *)
Definition referenced (k : kind) (id : Z) (s : db) : bool :=
  match k with
  | KTopic => topic_referenced id s
  | KAuthor => author_referenced id s
  | KEntry => false
  end.

(** [get_X_by_id id] yields None. *)
Definition absent_by_id (k : kind) (id : Z) (s : db) : Prop :=
  match k with
  | KTopic => get_topic_by_id id s = None
  | KAuthor => get_author_by_id id s = None
  | KEntry => get_entry_by_id id s = None
  end.

(** [len] of a str: the code points of its UTF-8 text, that is the bytes
    that are not continuation bytes (10xxxxxx). *)
Definition is_continuation (c : Ascii.ascii) : bool :=
  match c with
  | Ascii.Ascii _ _ _ _ _ _ b6 b7 => b7 && negb b6
  end.

Fixpoint len (s : string) : nat :=
  match s with
  | EmptyString => O
  | String c rest => if is_continuation c then len rest else S (len rest)
  end.

(** The largest signed 64-bit integer plus one. *)
Definition too_large : Z := 2 ^ 63.

(** Forty times U+65E5, three bytes each. *)
Definition forty_wide : string :=
  String.concat ""
    (repeat (String (Ascii.ascii_of_nat 230)
               (String (Ascii.ascii_of_nat 151)
                  (String (Ascii.ascii_of_nat 165) EmptyString))) 40).

(** ** blog_api.py: the JSON views

    A view reads [request.form], calls the store and either returns the
    body it passes to [jsonify] or raises.  [RequestError] is the module's
    own exception; an exception of the store is not caught by any view. *)

(** [request.form]: the posted fields; the first value of a key wins. *)
Definition form : Type := list (string * string).

Fixpoint form_get (f : form) (key : string) : option string :=
  match f with
  | [] => None
  | (k, v) :: rest => if String.eqb k key then Some v else form_get rest key
  end.

(** [key in request.form] *)
Definition form_has (f : form) (key : string) : bool :=
  existsb (fun kv => String.eqb (fst kv) key) f.

Inductive json :=
| JNull
| JEntry (d : EntryDict.t)
| JEntries (l : list EntryDict.t)
| JAuthor (a : Author.row)
| JAuthors (l : list Author.row)
| JTopic (t : Topic.row)
| JTopics (l : list Topic.row)
| JMessage (message : string)
| JError (error : string).

Inductive view_exn :=
| RequestError (status_code : Z) (error_message : string)
| BadRequestKeyError (key : string)
| Unhandled (e : exn).

Inductive view_result (A : Type) :=
| Responds (a : A)
| Fails (e : view_exn).
Arguments Responds {A} a.
Arguments Fails {A} e.

Definition view (A : Type) : Type := db -> view_result A * db.

Definition respond {A} (a : A) : view A := fun s => (Responds a, s).
Definition fail {A} (e : view_exn) : view A := fun s => (Fails e, s).

(** A call of a [BlogDatabase] method from a view. *)
Definition call {A B} (m : M A) (k : A -> view B) : view B :=
  fun s =>
    match m s with
    | (Returns a, s') => k a s'
    | (Raises e, s') => (Fails (Unhandled e), s')
    end.

(** [request.form[key]] *)
Definition item {B} (f : form) (key : string) (k : string -> view B)
  : view B :=
  match form_get f key with
  | Some v => k v
  | None => fail (BadRequestKeyError key)
  end.

(** [jsonify] of what a lookup returned: None is the JSON null. *)
Definition jsonify_entry (e : option EntryDict.t) : json :=
  match e with Some d => JEntry d | None => JNull end.
Definition jsonify_author (a : option Author.row) : json :=
  match a with Some r => JAuthor r | None => JNull end.
Definition jsonify_topic (t : option Topic.row) : json :=
  match t with Some r => JTopic r | None => JNull end.

(** The loop of [EntriesView.post]: the first parameter not in the form. *)
Fixpoint first_missing (parameters : list string) (f : form)
  : option string :=
  match parameters with
  | [] => None
  | parameter :: rest =>
      if form_has f parameter then first_missing rest f else Some parameter
  end.

Module EntriesView.

Definition get (entry_id : option Z) : view json :=
  fun s =>
    match entry_id with
    | None => respond (JEntries (get_all_entries s)) s
    | Some i =>
        match get_entry_by_id i s with
        | Some entry => respond (JEntry entry) s
        | None => fail (RequestError 404 "entry not found") s
        end
    end.

Definition post (f : form) : view json :=
  match first_missing ["title"; "content"; "author"; "topic"]%string f with
  | Some parameter =>
      fail (RequestError 422
              (String.append "parameter "
                 (String.append parameter " required")))
  | None =>
      item f "title" (fun title =>
      item f "content" (fun content =>
      item f "author" (fun author =>
      item f "topic" (fun topic =>
      call (insert_entry title content author topic) (fun entry =>
      respond (jsonify_entry entry))))))
  end.

Definition delete (entry_id : Z) : view json :=
  fun s =>
    match get_entry_by_id entry_id s with
    | None => fail (RequestError 404 "entry not found") s
    | Some _ =>
        call (delete_entry entry_id)
          (fun _ => respond (JMessage "entry deleted successfully")) s
    end.

End EntriesView.

Module AuthorsView.

Definition get (author_id : option Z) : view json :=
  fun s =>
    match author_id with
    | None => respond (JAuthors (get_all_authors s)) s
    | Some i =>
        match get_author_by_id i s with
        | Some author => respond (JAuthor author) s
        | None => fail (RequestError 404 "author not found") s
        end
    end.

Definition post (f : form) : view json :=
  if form_has f "name"
  then item f "name" (fun name =>
       call (insert_author name) (fun author =>
       respond (jsonify_author author)))
  else fail (RequestError 422 "author name required").

Definition delete (author_id : Z) : view json :=
  fun s =>
    match get_author_by_id author_id s with
    | None => fail (RequestError 404 "author not found") s
    | Some _ =>
        call (delete_author author_id)
          (fun _ => respond (JMessage "author deleted successfully")) s
    end.

End AuthorsView.

Module TopicsView.

Definition get (topic_id : option Z) : view json :=
  fun s =>
    match topic_id with
    | None => respond (JTopics (get_all_topics s)) s
    | Some i =>
        match get_topic_by_id i s with
        | Some topic => respond (JTopic topic) s
        | None => fail (RequestError 404 "topic not found") s
        end
    end.

Definition post (f : form) : view json :=
  if form_has f "topic"
  then item f "topic" (fun topic =>
       call (insert_topic topic) (fun t =>
       respond (jsonify_topic t)))
  else fail (RequestError 422 "topic name required").

Definition delete (topic_id : Z) : view json :=
  fun s =>
    match get_topic_by_id topic_id s with
    | None => fail (RequestError 404 "topic not found") s
    | Some _ =>
        call (delete_topic topic_id)
          (fun _ => respond (JMessage "topic deleted successfully")) s
    end.

End TopicsView.



(** ** browse_blog.py: the pages

    A page is the template's arguments; the templates are not part of the
    sources. *)

Module Browse.

Record post_entry_page := mkpage {
  begin : bool;
  successful_add : option bool;
  notice_text : option string }.

Record entry_page := mkentry {
  title : string; content : string; author : string; topic : string }.

Definition max_length : nat := 100.

(** The loop over (title, content, author, topic), with its [break]s.
    [len] counts the characters (code points) of the string. *)
Fixpoint check_parameters (parameters : list string)
         (successful_add : option bool) (notice_text : option string)
  : option bool * option string :=
  match parameters with
  | [] => (successful_add, notice_text)
  | parameter :: rest =>
      if String.eqb parameter ""
      then (Some false, Some "There's a missing parameter"%string)
      else if Nat.ltb max_length (len parameter)
      then (Some false, Some "All inputs must be under 100 characters"%string)
      else check_parameters rest (Some true) notice_text
  end.

Definition add_entry (f : form) : view post_entry_page :=
  if form_has f "title" && form_has f "content"
     && form_has f "author" && form_has f "topic"
  then
    item f "title" (fun title =>
    item f "content" (fun content =>
    item f "author" (fun author =>
    item f "topic" (fun topic =>
    let '(successful_add, notice_text) :=
      check_parameters [title; content; author; topic] None None in
    match successful_add with
    | Some true =>
        call (insert_entry title content author topic) (fun _ =>
        respond (mkpage true successful_add
                   (Some "Entry added successfully!"%string)))
    | _ => respond (mkpage true successful_add notice_text)
    end))))
  else respond (mkpage false None None).

Definition all_entries : view (list EntryDict.t) :=
  fun s => respond (get_all_entries s) s.

Definition authors : view (list Author.row) :=
  fun s => respond (get_all_authors s) s.

Definition topics : view (list Topic.row) :=
  fun s => respond (get_all_topics s) s.

Section EntryPage.

(** The route hands [entry_id] over as text.  The engine compares the
    integer key with it after converting the text to a number; [numeric]
    is that conversion: the integer the text stands for, if any. *)
Variable numeric : string -> option Z.

Definition entry (entry_id : string) : view entry_page :=
  fun s =>
    let get_entry :=
      match numeric entry_id with
      | Some k => get_entry_by_id k s
      | None => None
      end in
    match get_entry with
    | Some d =>
        respond (mkentry (EntryDict.title d) (EntryDict.content d)
                   (EntryDict.author d) (EntryDict.topic d)) s
    | None => fail (Unhandled TypeError) s
    end.

End EntryPage.

End Browse.

(** ** comlineapp.py

    [main] with the decoded body of GET /entries and the line typed by the
    user as arguments; the value is the list of lines printed. *)
Definition main (content : list EntryDict.t) (requested_author : string)
  : list string :=
  "Here are the entry titles associated with the author:"%string
  :: map EntryDict.title
       (filter
          (fun result => String.eqb (EntryDict.author result) requested_author)
          content).

(** Requests used as concrete inputs. *)
Definition hello_form : form :=
  [("title", "Hello"); ("content", "Hello how are you");
   ("author", "Sam"); ("topic", "Stuff")]%string.

(** ** Lists: lookups by key *)

Section Lookup.
Context {A : Type} (key : A -> Z).

Lemma filter_key_absent (l : list A) (k : Z) :
  ~ In k (map key l) -> filter (fun r => key r =? k) l = [].
Proof.
  induction l as [|x l IH]; simpl; intros H; [reflexivity|].
  destruct (Z.eqb_spec (key x) k) as [E|E].
  - exfalso; apply H; now left.
  - apply IH; intros Hin; apply H; now right.
Qed.

Lemma filter_negb_key_absent (l : list A) (k : Z) :
  ~ In k (map key l) -> filter (fun r => negb (key r =? k)) l = l.
Proof.
  induction l as [|x l IH]; simpl; intros H; [reflexivity|].
  destruct (Z.eqb_spec (key x) k) as [E|E]; simpl.
  - exfalso; apply H; now left.
  - f_equal; apply IH; intros Hin; apply H; now right.
Qed.

Lemma filter_key_unique (l : list A) (x : A) :
  NoDup (map key l) -> In x l ->
  filter (fun r => key r =? key x) l = [x].
Proof.
  induction l as [|y l IH]; simpl; intros ND Hin; [contradiction|].
  inversion ND as [|? ? Hy ND']; subst.
  destruct Hin as [->|Hin].
  - rewrite Z.eqb_refl, filter_key_absent by assumption; reflexivity.
  - destruct (Z.eqb_spec (key y) (key x)) as [E|E].
    + exfalso; apply Hy; rewrite E; now apply in_map.
    + now apply IH.
Qed.

Lemma key_absent_after_delete (l : list A) (k : Z) :
  ~ In k (map key (filter (fun r => negb (key r =? k)) l)).
Proof.
  rewrite in_map_iff; intros (x & Hk & Hin).
  apply filter_In in Hin; destruct Hin as [_ Hx].
  rewrite <- Hk, Z.eqb_refl in Hx; discriminate.
Qed.

Lemma filter_keeps_distinct {B} (proj : A -> B) (keep : A -> bool)
      (rows : list A) :
  NoDup (map proj rows) -> NoDup (map proj (filter keep rows)).
Proof.
  intros ND; induction rows as [|x rows IH]; simpl; [constructor|].
  simpl in ND; apply NoDup_cons_iff in ND; destruct ND as [Hx ND].
  destruct (keep x); simpl; [constructor|]; auto.
  rewrite in_map_iff; intros (y & Hy & Hin).
  apply Hx; rewrite <- Hy; apply in_map.
  apply filter_In in Hin; tauto.
Qed.

Lemma key_present_exists (l : list A) (k : Z) :
  existsb (fun r => key r =? k) l = true <-> In k (map key l).
Proof.
  rewrite existsb_exists, in_map_iff; split; intros (x & H1 & H2).
  - exists x; split; [now apply Z.eqb_eq|assumption].
  - exists x; split; [assumption|now apply Z.eqb_eq].
Qed.
End Lookup.

(** ** Lists: what [fetchone] sees *)

Section Fetch.
Context {A : Type} (p : A -> bool).

Lemma fetch_some (l : list A) (r : A) :
  row_to_dict (filter p l) = Some r -> In r l /\ p r = true.
Proof.
  intros H; apply filter_In.
  destruct (filter p l) as [|x l'] eqn:E; simpl in H; [discriminate|].
  injection H as ->; now left.
Qed.

Lemma fetch_present (l : list A) :
  existsb p l = true -> exists r, row_to_dict (filter p l) = Some r.
Proof.
  induction l as [|x l IH]; simpl; [discriminate|].
  destruct (p x); simpl; [eauto|exact IH].
Qed.

Lemma fetch_absent (l : list A) :
  existsb p l = false -> filter p l = [].
Proof.
  induction l as [|x l IH]; simpl; [reflexivity|].
  destruct (p x); simpl; [discriminate|exact IH].
Qed.

Lemma fetch_app_new (l : list A) (x : A) :
  existsb p l = false -> p x = true ->
  row_to_dict (filter p (l ++ [x])) = Some x.
Proof.
  intros Hl Hx.
  rewrite filter_app, (fetch_absent l Hl); simpl; now rewrite Hx.
Qed.
End Fetch.

(** ** Keys handed out by the engine *)

Lemma fold_max_bound (l : list Z) (a : Z) :
  a <= fold_left Z.max l a /\ Forall (fun i => i <= fold_left Z.max l a) l.
Proof.
  revert a; induction l as [|x l IH]; intros a; simpl.
  - split; [lia|constructor].
  - destruct (IH (Z.max a x)) as [H1 H2]; split; [lia|].
    constructor; [lia|exact H2].
Qed.

Lemma next_rowid_above (ids : list Z) :
  Forall (fun i => i < next_rowid ids) ids.
Proof.
  destruct ids as [|i rest]; [constructor|].
  unfold next_rowid.
  destruct (fold_max_bound rest i) as [H1 H2].
  constructor; [lia|].
  eapply Forall_impl; [|exact H2]; simpl; intros; lia.
Qed.

Lemma next_rowid_fresh (ids : list Z) : ~ In (next_rowid ids) ids.
Proof.
  intros Hin.
  pose proof (next_rowid_above ids) as H.
  rewrite Forall_forall in H; specialize (H _ Hin); lia.
Qed.

Lemma fold_max_le (l : list Z) (a m : Z) :
  a <= m -> Forall (fun i => i <= m) l -> fold_left Z.max l a <= m.
Proof.
  revert a; induction l as [|x l IH]; simpl; intros a Ha F; [exact Ha|].
  apply Forall_cons_iff in F; destruct F as [Hx F].
  apply IH; [lia|exact F].
Qed.

Lemma next_rowid_snoc (l : list Z) (x : Z) :
  Forall (fun i => i <= x) l -> next_rowid (l ++ [x]) = x + 1.
Proof.
  destruct l as [|i rest]; simpl; intros F; [reflexivity|].
  apply Forall_cons_iff in F; destruct F as [Hi F].
  rewrite fold_left_app; simpl.
  pose proof (fold_max_le rest i x Hi F); lia.
Qed.

Lemma fold_max_in (l : list Z) (a : Z) : In (fold_left Z.max l a) (a :: l).
Proof.
  revert a; induction l as [|x l IH]; intros a; simpl; [now left|].
  destruct (IH (Z.max a x)) as [H|H]; [|now right; right].
  destruct (Z.max_spec a x) as [[_ E]|[_ E]]; rewrite E in *;
    rewrite <- H; simpl; auto.
Qed.

(** The new key is 1 in an empty table and the largest key plus one
    otherwise. *)
Lemma next_rowid_largest_plus_one (ids : list Z) :
  (ids = [] /\ next_rowid ids = 1) \/
  (In (next_rowid ids - 1) ids /\
   Forall (fun old => old <= next_rowid ids - 1) ids).
Proof.
  destruct ids as [|i rest]; [now left|right].
  unfold next_rowid.
  replace (fold_left Z.max rest i + 1 - 1) with (fold_left Z.max rest i)
    by lia.
  split; [apply fold_max_in|].
  destruct (fold_max_bound rest i) as [H1 H2]; constructor; assumption.
Qed.

Lemma next_rowid_after (ids : list Z) :
  next_rowid (ids ++ [next_rowid ids]) = next_rowid ids + 1.
Proof.
  apply next_rowid_snoc.
  eapply Forall_impl; [|apply next_rowid_above]; simpl; intros; lia.
Qed.

Lemma NoDup_snoc {A} (l : list A) (x : A) :
  NoDup l -> ~ In x l -> NoDup (l ++ [x]).
Proof.
  intros ND Hx.
  apply NoDup_app; [assumption|repeat constructor; intros []|].
  intros y Hy [<-|[]]; contradiction.
Qed.

Lemma name_known {A} (nm : A -> string) (l : list A) (n : string) :
  existsb (fun r => String.eqb (nm r) n) l = true <-> In n (map nm l).
Proof.
  rewrite existsb_exists, in_map_iff; split; intros (x & H1 & H2).
  - exists x; split; [now apply String.eqb_eq|assumption].
  - exists x; split; [assumption|now apply String.eqb_eq].
Qed.

Lemma name_unknown {A} (nm : A -> string) (l : list A) (n : string) :
  existsb (fun r => String.eqb (nm r) n) l = false -> ~ In n (map nm l).
Proof.
  intros H Hin; apply name_known in Hin; congruence.
Qed.

(** ** The monad *)

Lemma bind_returns {A B} (m : M A) (k : A -> M B) (s s' : db) (a : A) :
  m s = (Returns a, s') -> bind m k s = k a s'.
Proof. unfold bind; intros ->; reflexivity. Qed.

Lemma snd_then_ret {A} (m : M A) (s : db) :
  snd ((m ;;; ret tt) s) = snd (m s).
Proof. unfold bind; destruct (m s) as [[a|e] s']; reflexivity. Qed.

Lemma db_eta (s : db) : mkdb (topics s) (authors s) (entries s) = s.
Proof. destruct s; reflexivity. Qed.

(** ** get-or-create *)

(** [insert_author] returns the row carrying the name; the store is the
    one it started from, or that store with one author row appended. *)
Lemma insert_author_spec (n : string) (s : db) :
  exists r s',
    insert_author n s = (Returns (Some r), s') /\
    get_author_by_name n s' = Some r /\
    Author.name r = n /\ In r (authors s') /\
    (s' = s \/
     (~ In n (map Author.name (authors s)) /\
      r = Author.mk (next_rowid (author_ids s)) n /\
      s' = set_authors (authors s ++ [r]) s)).
Proof.
  unfold insert_author, bind, insert_or_ignore_author, query.
  destruct (existsb _ (authors s)) eqn:E.
  - destruct (fetch_present _ _ E) as [r Hr].
    exists r, s; unfold get_author_by_name; rewrite Hr.
    destruct (fetch_some _ _ _ Hr) as [Hin Hn].
    apply String.eqb_eq in Hn; repeat split; auto.
  - set (r := Author.mk (next_rowid (author_ids s)) n).
    assert (Hr : get_author_by_name n (set_authors (authors s ++ [r]) s)
                 = Some r).
    { unfold get_author_by_name; simpl.
      apply fetch_app_new; [exact E|apply String.eqb_refl]. }
    exists r, (set_authors (authors s ++ [r]) s); rewrite Hr.
    repeat split; auto.
    + simpl; apply in_or_app; right; now left.
    + right; repeat split; auto. now apply name_unknown.
Qed.

Lemma insert_topic_spec (n : string) (s : db) :
  exists r s',
    insert_topic n s = (Returns (Some r), s') /\
    get_topic_by_name n s' = Some r /\
    Topic.topic r = n /\ In r (topics s') /\
    (s' = s \/
     (~ In n (map Topic.topic (topics s)) /\
      r = Topic.mk (next_rowid (topic_ids s)) n /\
      s' = set_topics (topics s ++ [r]) s)).
Proof.
  unfold insert_topic, bind, insert_or_ignore_topic, query.
  destruct (existsb _ (topics s)) eqn:E.
  - destruct (fetch_present _ _ E) as [r Hr].
    exists r, s; unfold get_topic_by_name; rewrite Hr.
    destruct (fetch_some _ _ _ Hr) as [Hin Hn].
    apply String.eqb_eq in Hn; repeat split; auto.
  - set (r := Topic.mk (next_rowid (topic_ids s)) n).
    assert (Hr : get_topic_by_name n (set_topics (topics s ++ [r]) s)
                 = Some r).
    { unfold get_topic_by_name; simpl.
      apply fetch_app_new; [exact E|apply String.eqb_refl]. }
    exists r, (set_topics (topics s ++ [r]) s); rewrite Hr.
    repeat split; auto.
    + simpl; apply in_or_app; right; now left.
    + right; repeat split; auto. now apply name_unknown.
Qed.

(** ** The schema's constraints are kept *)

Lemma create_tables_wf : wf create_tables.
Proof. constructor; simpl; try constructor; intros e []. Qed.

Lemma wf_add_author (s : db) (n : string) :
  wf s -> ~ In n (map Author.name (authors s)) ->
  wf (set_authors (authors s ++ [Author.mk (next_rowid (author_ids s)) n]) s).
Proof.
  intros [] Hn; constructor; simpl; auto.
  - unfold author_ids; simpl; rewrite map_app; simpl.
    apply NoDup_snoc; [assumption|apply next_rowid_fresh].
  - rewrite map_app; simpl; now apply NoDup_snoc.
  - intros e He; unfold author_ids; simpl; rewrite map_app.
    apply in_or_app; left; auto.
Qed.

Lemma wf_add_topic (s : db) (n : string) :
  wf s -> ~ In n (map Topic.topic (topics s)) ->
  wf (set_topics (topics s ++ [Topic.mk (next_rowid (topic_ids s)) n]) s).
Proof.
  intros [] Hn; constructor; simpl; auto.
  - unfold topic_ids; simpl; rewrite map_app; simpl.
    apply NoDup_snoc; [assumption|apply next_rowid_fresh].
  - rewrite map_app; simpl; now apply NoDup_snoc.
  - intros e He; unfold topic_ids; simpl; rewrite map_app.
    apply in_or_app; left; auto.
Qed.

Lemma insert_author_wf (n : string) (s : db) :
  wf s -> wf (snd (insert_author n s)).
Proof.
  intros W.
  destruct (insert_author_spec n s) as (r & s' & -> & _ & _ & _ & H); simpl.
  destruct H as [->|(Hn & -> & ->)]; [assumption|now apply wf_add_author].
Qed.

Lemma insert_topic_wf (n : string) (s : db) :
  wf s -> wf (snd (insert_topic n s)).
Proof.
  intros W.
  destruct (insert_topic_spec n s) as (r & s' & -> & _ & _ & _ & H); simpl.
  destruct H as [->|(Hn & -> & ->)]; [assumption|now apply wf_add_topic].
Qed.

(** ** The three-way join *)

Lemma flat_map_guard {A B} (b : bool) (p : A -> bool) (g : A -> B)
      (l : list A) :
  flat_map (fun t => if b && p t then [g t] else []) l
  = if b then map g (filter p l) else [].
Proof.
  induction l as [|x l IH]; simpl; [now destruct b|].
  rewrite IH; destruct b; simpl; [|reflexivity].
  now destruct (p x).
Qed.

Lemma flat_map_filter {A B} (p : A -> bool) (h : A -> list B) (l : list A) :
  flat_map (fun a => if p a then h a else []) l = flat_map h (filter p l).
Proof.
  induction l as [|x l IH]; simpl; [reflexivity|].
  rewrite IH; now destruct (p x).
Qed.

Lemma filter_constant {A} (p : A -> bool) (b : bool) (l : list A) :
  (forall x, In x l -> p x = b) -> filter p l = if b then l else [].
Proof.
  induction l as [|x l IH]; simpl; intros H; [now destruct b|].
  rewrite (H x (or_introl eq_refl)), IH by auto.
  now destruct b.
Qed.

(** The nested loops are two key lookups. *)
Lemma join_rows_lookup (s : db) (e : Entry.row) :
  join_rows s e
  = flat_map
      (fun a =>
         map (joined e a)
           (filter (fun t => Topic.topic_id t =? Entry.topic_id e)
              (topics s)))
      (filter (fun a => Author.author_id a =? Entry.author_id e)
         (authors s)).
Proof.
  unfold join_rows.
  rewrite <- flat_map_filter.
  apply flat_map_ext; intros a.
  apply flat_map_guard.
Qed.

Lemma join_rows_In (s : db) (e : Entry.row) (d : EntryDict.t) :
  In d (join_rows s e) <->
  exists a t,
    In a (authors s) /\ In t (topics s) /\
    Author.author_id a = Entry.author_id e /\
    Topic.topic_id t = Entry.topic_id e /\
    d = joined e a t.
Proof.
  rewrite join_rows_lookup, in_flat_map; split.
  - intros (a & Ha & Hd).
    apply in_map_iff in Hd; destruct Hd as (t & <- & Ht).
    apply filter_In in Ha, Ht.
    exists a, t; repeat split; try tauto; apply Z.eqb_eq; tauto.
  - intros (a & t & Ha & Ht & Ea & Et & ->).
    exists a; split.
    + apply filter_In; split; [assumption|now apply Z.eqb_eq].
    + apply in_map, filter_In; split; [assumption|now apply Z.eqb_eq].
Qed.

(** With keys that identify their row the join yields one row per entry. *)
Lemma join_rows_unique (s : db) (e : Entry.row) (a : Author.row)
      (t : Topic.row) :
  NoDup (author_ids s) -> NoDup (topic_ids s) ->
  In a (authors s) -> In t (topics s) ->
  Author.author_id a = Entry.author_id e ->
  Topic.topic_id t = Entry.topic_id e ->
  join_rows s e = [joined e a t].
Proof.
  intros NA NT Ha Ht Ea Et.
  rewrite join_rows_lookup, <- Ea, <- Et.
  rewrite (filter_key_unique Author.author_id) by assumption.
  simpl.
  rewrite (filter_key_unique Topic.topic_id) by assumption.
  reflexivity.
Qed.

Lemma join_rows_wf (s : db) (e : Entry.row) :
  wf s -> In e (entries s) ->
  exists a t,
    In a (authors s) /\ In t (topics s) /\
    Author.author_id a = Entry.author_id e /\
    Topic.topic_id t = Entry.topic_id e /\
    join_rows s e = [joined e a t].
Proof.
  intros W He.
  pose proof (entry_author_fk s W e He) as Ha.
  pose proof (entry_topic_fk s W e He) as Ht.
  apply in_map_iff in Ha, Ht.
  destruct Ha as (a & Ea & Ha), Ht as (t & Et & Ht).
  exists a, t; repeat split; auto.
  apply join_rows_unique; auto using author_pk, topic_pk.
Qed.

Lemma entry_join_In (s : db) (d : EntryDict.t) :
  In d (entry_join s) <->
  exists e a t,
    In e (entries s) /\ In a (authors s) /\ In t (topics s) /\
    Author.author_id a = Entry.author_id e /\
    Topic.topic_id t = Entry.topic_id e /\
    d = joined e a t.
Proof.
  unfold entry_join; rewrite in_flat_map; split.
  - intros (e & He & Hd); apply join_rows_In in Hd.
    destruct Hd as (a & t & H); exists e, a, t; tauto.
  - intros (e & a & t & He & H); exists e; split; [assumption|].
    apply join_rows_In; exists a, t; tauto.
Qed.

(** AND entry_id = ? selects entries before joining. *)
Lemma filter_join (s : db) (k : Z) (l : list Entry.row) :
  filter (fun d => EntryDict.entry_id d =? k) (flat_map (join_rows s) l)
  = flat_map (join_rows s) (filter (fun e => Entry.entry_id e =? k) l).
Proof.
  induction l as [|e l IH]; simpl; [reflexivity|].
  rewrite filter_app, IH.
  rewrite (filter_constant _ (Entry.entry_id e =? k)).
  - now destruct (Entry.entry_id e =? k).
  - intros d Hd; apply join_rows_In in Hd.
    destruct Hd as (a & t & _ & _ & _ & _ & ->); reflexivity.
Qed.

Lemma get_entry_by_id_lookup (k : Z) (s : db) :
  get_entry_by_id k s
  = row_to_dict
      (flat_map (join_rows s)
         (filter (fun e => Entry.entry_id e =? k) (entries s))).
Proof. unfold get_entry_by_id, entry_join; now rewrite filter_join. Qed.

Lemma entry_join_length (s : db) :
  wf s -> List.length (entry_join s) = List.length (entries s).
Proof.
  intros W.
  assert (H : forall l, incl l (entries s) ->
                        List.length (flat_map (join_rows s) l)
                        = List.length l).
  { induction l as [|e l IH]; simpl; intros Hl; [reflexivity|].
    destruct (join_rows_wf s e W) as (a & t & _ & _ & _ & _ & ->).
    - apply Hl; now left.
    - simpl; f_equal; apply IH.
      intros x Hx; apply Hl; now right. }
  apply H, incl_refl.
Qed.

(** ** insert_entry *)

Lemma wf_add_entry (s : db) (t c : string) (aid tid : Z) :
  wf s -> In aid (author_ids s) -> In tid (topic_ids s) ->
  wf (set_entries
        (entries s ++ [Entry.mk (next_rowid (entry_ids s)) t c aid tid]) s).
Proof.
  intros [] Ha Ht; constructor; simpl; auto.
  - unfold entry_ids; simpl; rewrite map_app; simpl.
    apply NoDup_snoc; [assumption|apply next_rowid_fresh].
  - intros e He; apply in_app_or in He.
    destruct He as [He|[<-|[]]]; auto.
  - intros e He; apply in_app_or in He.
    destruct He as [He|[<-|[]]]; auto.
Qed.

Lemma resolved_spec (a tp : string) (s : db) :
  exists ra rt,
    insert_author a s = (Returns (Some ra), snd (insert_author a s)) /\
    insert_topic tp (snd (insert_author a s))
    = (Returns (Some rt), resolved a tp s) /\
    get_author_by_name a (snd (insert_author a s)) = Some ra /\
    get_topic_by_name tp (resolved a tp s) = Some rt /\
    get_author_by_name a (resolved a tp s) = Some ra /\
    Author.name ra = a /\ Topic.topic rt = tp /\
    In ra (authors (resolved a tp s)) /\ In rt (topics (resolved a tp s)) /\
    entries (resolved a tp s) = entries s.
Proof.
  unfold resolved.
  destruct (insert_author_spec a s) as (ra & s1 & Ha & Hga & Hna & Hia & Hs1).
  destruct (insert_topic_spec tp s1) as (rt & s2 & Ht & Hgt & Hnt & Hit & Hs2).
  rewrite Ha; simpl; rewrite Ht; simpl.
  exists ra, rt.
  assert (authors s2 = authors s1 /\ entries s2 = entries s1) as [EA EE].
  { destruct Hs2 as [->|(_ & _ & ->)]; auto. }
  assert (entries s1 = entries s) as EE1.
  { destruct Hs1 as [->|(_ & _ & ->)]; auto. }
  repeat split; auto; try congruence.
  unfold get_author_by_name in *; now rewrite EA.
Qed.

Lemma resolved_wf (a tp : string) (s : db) : wf s -> wf (resolved a tp s).
Proof. intros W; now apply insert_topic_wf, insert_author_wf. Qed.

(** [insert_entry] returns, appends one entry row under a new key and
    hands back that row joined with its author and topic. *)
Lemma insert_entry_spec (t c a tp : string) (s : db) :
  wf s ->
  exists ra rt,
    let e := Entry.mk (next_rowid (entry_ids s)) t c
               (Author.author_id ra) (Topic.topic_id rt) in
    let s' := set_entries (entries s ++ [e]) (resolved a tp s) in
    insert_entry t c a tp s = (Returns (Some (joined e ra rt)), s') /\
    get_entry_by_id (Entry.entry_id e) s' = Some (joined e ra rt) /\
    get_author_by_name a s' = Some ra /\
    get_topic_by_name tp s' = Some rt /\
    Author.name ra = a /\ Topic.topic rt = tp /\
    In ra (authors s') /\ In rt (topics s') /\
    wf s'.
Proof.
  intros W.
  destruct (resolved_spec a tp s)
    as (ra & rt & Ha & Ht & Hga & Hgt & Hga2 & Hna & Hnt & Hia & Hit & EE).
  pose proof (resolved_wf a tp s W) as W2.
  exists ra, rt; cbv zeta.
  set (e := Entry.mk _ t c _ _).
  set (s' := set_entries _ _).
  assert (Hget : get_entry_by_id (Entry.entry_id e) s' = Some (joined e ra rt)).
  { rewrite get_entry_by_id_lookup; unfold s'; simpl entries.
    rewrite filter_app.
    rewrite (filter_key_absent Entry.entry_id)
      by (apply (next_rowid_fresh (entry_ids s))).
    simpl; rewrite Z.eqb_refl; simpl; rewrite app_nil_r.
    rewrite (join_rows_unique _ e ra rt); auto.
    - apply (author_pk _ W2).
    - apply (topic_pk _ W2). }
  assert (Hs' : insert_entry t c a tp s = (Returns (Some (joined e ra rt)), s')).
  { unfold insert_entry.
    rewrite (bind_returns _ _ _ _ _ Ha).
    unfold bind at 1, query at 1; rewrite Hga.
    unfold bind at 1, subscript at 1, ret at 1.
    rewrite (bind_returns _ _ _ _ _ Ht).
    unfold bind at 1, query at 1; rewrite Hgt.
    unfold bind at 1, subscript at 1, ret at 1.
    unfold bind, insert_into_entry.
    replace (existsb _ (authors (resolved a tp s))) with true.
    2:{ symmetry; apply key_present_exists; now apply in_map. }
    replace (existsb _ (topics (resolved a tp s))) with true.
    2:{ symmetry; apply key_present_exists; now apply in_map. }
    simpl andb; cbv iota.
    unfold entry_ids; rewrite EE; fold (entry_ids s).
    unfold query; fold e; fold s'.
    exact (f_equal (fun x => (Returns x, s')) Hget). }
  assert (W' : wf s').
  { unfold s', e, entry_ids; rewrite <- EE.
    apply (wf_add_entry (resolved a tp s)); [assumption|now apply in_map|now apply in_map]. }
  split; [exact Hs'|]; split; [exact Hget|].
  split; [exact Hga2|]; split; [exact Hgt|].
  split; [exact Hna|]; split; [exact Hnt|].
  split; [exact Hia|]; split; [exact Hit|exact W'].
Qed.

(** ** Deletes *)

(** The foreign-key check of a DELETE by key: some doomed parent has a
    child iff the key is present and some child carries it. *)
Lemma fk_check {P C} (pk : P -> Z) (fk : C -> Z) (id : Z)
      (ps : list P) (cs : list C) :
  existsb (fun p => existsb (fun c => fk c =? pk p) cs)
    (filter (fun r => pk r =? id) ps)
  = existsb (fun r => pk r =? id) ps && existsb (fun c => fk c =? id) cs.
Proof.
  induction ps as [|p ps IH]; simpl; [reflexivity|].
  destruct (Z.eqb_spec (pk p) id) as [E|E]; simpl; [|exact IH].
  rewrite IH, E.
  destruct (existsb (fun c => fk c =? id) cs),
           (existsb (fun r => pk r =? id) ps); reflexivity.
Qed.

Lemma delete_author_eq (id : Z) (s : db) :
  delete_author id s
  = if author_present id s && author_referenced id s
    then (Raises IntegrityError, s)
    else (Returns tt,
          set_authors
            (filter (fun r => negb (Author.author_id r =? id)) (authors s))
            s).
Proof.
  unfold delete_author, author_present, author_referenced.
  cbv zeta; now rewrite fk_check.
Qed.

Lemma delete_topic_eq (id : Z) (s : db) :
  delete_topic id s
  = if topic_present id s && topic_referenced id s
    then (Raises IntegrityError, s)
    else (Returns tt,
          set_topics
            (filter (fun r => negb (Topic.topic_id r =? id)) (topics s)) s).
Proof.
  unfold delete_topic, topic_present, topic_referenced.
  cbv zeta; now rewrite fk_check.
Qed.

Lemma In_map_filter_other {A} (key : A -> Z) (l : list A) (k id : Z) :
  In k (map key l) -> k <> id ->
  In k (map key (filter (fun r => negb (key r =? id)) l)).
Proof.
  rewrite !in_map_iff; intros (x & Hk & Hin) Hne.
  exists x; split; [assumption|].
  apply filter_In; split; [assumption|].
  apply negb_true_iff, Z.eqb_neq; congruence.
Qed.

Lemma delete_author_wf (id : Z) (s : db) :
  wf s -> wf (snd (delete_author id s)).
Proof.
  intros W; rewrite delete_author_eq.
  destruct (author_present id s && author_referenced id s) eqn:E;
    [exact W|].
  destruct W; constructor; simpl; auto.
  - now apply filter_keeps_distinct.
  - now apply filter_keeps_distinct.
  - intros e He; apply In_map_filter_other; [auto|].
    intros Hid; apply andb_false_iff in E; destruct E as [E|E].
    + unfold author_present in E.
      assert (In id (map Author.author_id (authors s)))
        by (rewrite <- Hid; auto).
      apply (key_present_exists Author.author_id) in H; congruence.
    + unfold author_referenced in E.
      assert (In id (map Entry.author_id (entries s)))
        by (rewrite <- Hid; now apply in_map).
      apply (key_present_exists Entry.author_id) in H; congruence.
Qed.

Lemma delete_topic_wf (id : Z) (s : db) :
  wf s -> wf (snd (delete_topic id s)).
Proof.
  intros W; rewrite delete_topic_eq.
  destruct (topic_present id s && topic_referenced id s) eqn:E;
    [exact W|].
  destruct W; constructor; simpl; auto.
  - now apply filter_keeps_distinct.
  - now apply filter_keeps_distinct.
  - intros e He; apply In_map_filter_other; [auto|].
    intros Hid; apply andb_false_iff in E; destruct E as [E|E].
    + unfold topic_present in E.
      assert (In id (map Topic.topic_id (topics s)))
        by (rewrite <- Hid; auto).
      apply (key_present_exists Topic.topic_id) in H; congruence.
    + unfold topic_referenced in E.
      assert (In id (map Entry.topic_id (entries s)))
        by (rewrite <- Hid; now apply in_map).
      apply (key_present_exists Entry.topic_id) in H; congruence.
Qed.

Lemma delete_entry_wf (id : Z) (s : db) :
  wf s -> wf (snd (delete_entry id s)).
Proof.
  intros []; constructor; simpl; auto.
  - now apply filter_keeps_distinct.
  - intros e He; apply filter_In in He; destruct He; auto.
  - intros e He; apply filter_In in He; destruct He; auto.
Qed.

(** ** Every store of a lifetime satisfies the schema *)

Lemma exec_wf (o : op) (s : db) : wf s -> wf (exec o s).
Proof.
  intros W; unfold exec; destruct o; simpl perform.
  - rewrite snd_then_ret; now apply insert_topic_wf.
  - rewrite snd_then_ret; now apply insert_author_wf.
  - rewrite snd_then_ret.
    destruct (insert_entry_spec title content author topic s W)
      as (ra & rt & H); cbv zeta in H.
    destruct H as (-> & _ & _ & _ & _ & _ & _ & _ & W'); exact W'.
  - now apply delete_topic_wf.
  - now apply delete_author_wf.
  - now apply delete_entry_wf.
Qed.

Lemma run_wf (ops : list op) (s : db) : wf s -> wf (run ops s).
Proof.
  revert s; induction ops as [|o ops IH]; intros s W; simpl; [exact W|].
  apply IH, exec_wf, W.
Qed.

Lemma reachable_wf (s : db) : reachable s -> wf s.
Proof. intros [ops ->]; apply run_wf, create_tables_wf. Qed.

Lemma run_app (ops1 ops2 : list op) (s : db) :
  run (ops1 ++ ops2) s = run ops2 (run ops1 s).
Proof. apply fold_left_app. Qed.

Lemma reachable_exec (o : op) (s : db) : reachable s -> reachable (exec o s).
Proof.
  intros [ops ->]; exists (ops ++ [o]); now rewrite run_app.
Qed.

(** ** The concrete stores *)

Example blog_hi_run : run hi_ops create_tables = blog_hi.
Proof. reflexivity. Qed.

Lemma blog_hi_reachable : reachable blog_hi.
Proof. exists hi_ops; reflexivity. Qed.

Lemma blog_hi_wf : wf blog_hi.
Proof. apply reachable_wf, blog_hi_reachable. Qed.

Example insert_entry_first :
  insert_entry "Hi" "Hi how are you" "Karen" "Thoughts" create_tables
  = (Returns (Some hi_dict), blog_hi).
Proof. reflexivity. Qed.

Example delete_entry_then_get :
  get_entry_by_id 1 (snd (delete_entry 1 blog_hi)) = None.
Proof. reflexivity. Qed.

(** tests.py, [test_get_all_authors]: Karen, Sam, then delete id 1. *)
Example test_get_all_authors :
  get_all_authors
    (run [InsertAuthor "Karen"; InsertAuthor "Sam"; DeleteAuthor 1]
       create_tables)
  = [Author.mk 2 "Sam"].
Proof. reflexivity. Qed.

(** tests.py, [test_get_all_entries]: two entries, then delete id 1. *)
Example test_get_all_entries :
  let s := run [InsertEntry "Hi" "Hi how are you" "Karen" "Thoughts";
                InsertEntry "Hello" "something??" "Karen" "Stuff"]
             create_tables in
  List.length (get_all_entries s) = 2%nat /\
  List.length (get_all_entries (exec (DeleteEntry 1) s)) = 1%nat.
Proof. split; reflexivity. Qed.

(** tests.py, [test_delete_author]: an author no entry references. *)
Example test_delete_author :
  let s := run [InsertAuthor "Karen"] create_tables in
  get_author_by_id 1 s = Some karen /\
  delete_author 1 s = (Returns tt, create_tables).
Proof. split; reflexivity. Qed.

(** ** Deleting a parent that an entry references *)

(** C1, as the specification words it, fails on the store holding the entry
    "Hi" by Karen: [delete_author 1] does not return, it raises, and the
    entry is still read back afterwards. *)
Lemma delete_referenced_author_blog_hi :
  In hi_row (entries blog_hi) /\
  get_author_by_id (Entry.author_id hi_row) blog_hi = Some karen /\
  delete_author (Entry.author_id hi_row) blog_hi
  = (Raises IntegrityError, blog_hi) /\
  ~ (exists s',
        delete_author (Entry.author_id hi_row) blog_hi = (Returns tt, s') /\
        get_entry_by_id (Entry.entry_id hi_row) s' = None /\
        ~ In hi_dict (get_all_entries s')).
Proof.
  split; [now left|]; split; [reflexivity|]; split; [reflexivity|].
  intros (s' & H & _); discriminate H.
Qed.

(** C1 (amended): in a store where an entry row points at an existing author
    row and an existing topic row, [delete_author] on that author's id and
    [delete_topic] on that topic's id both raise IntegrityError and leave
    the store as it was; the entry row is kept, [get_all_entries] still
    lists its record and [get_entry_by_id] on its id is not None. *)
Theorem delete_referenced_parent_raises
        (s : db) (e : Entry.row) (a : Author.row) (t : Topic.row) :
  In e (entries s) -> In a (authors s) -> In t (topics s) ->
  Entry.author_id e = Author.author_id a ->
  Entry.topic_id e = Topic.topic_id t ->
  delete_author (Author.author_id a) s = (Raises IntegrityError, s) /\
  delete_topic (Topic.topic_id t) s = (Raises IntegrityError, s) /\
  In e (entries (snd (delete_author (Author.author_id a) s))) /\
  In e (entries (snd (delete_topic (Topic.topic_id t) s))) /\
  In (joined e a t) (get_all_entries s) /\
  get_entry_by_id (Entry.entry_id e) s <> None.
Proof.
  intros He Ha Ht Ea Et.
  assert (Da : delete_author (Author.author_id a) s
               = (Raises IntegrityError, s)).
  { rewrite delete_author_eq.
    replace (author_present _ s) with true.
    2:{ symmetry; apply key_present_exists; now apply in_map. }
    replace (author_referenced _ s) with true; [reflexivity|].
    symmetry; apply key_present_exists; rewrite <- Ea; now apply in_map. }
  assert (Dt : delete_topic (Topic.topic_id t) s
               = (Raises IntegrityError, s)).
  { rewrite delete_topic_eq.
    replace (topic_present _ s) with true.
    2:{ symmetry; apply key_present_exists; now apply in_map. }
    replace (topic_referenced _ s) with true; [reflexivity|].
    symmetry; apply key_present_exists; rewrite <- Et; now apply in_map. }
  assert (Hj : In (joined e a t) (get_all_entries s)).
  { apply entry_join_In; exists e, a, t; auto 10. }
  rewrite Da, Dt; simpl; repeat split; auto.
  unfold get_entry_by_id; intros Hn.
  assert (Hf : In (joined e a t)
                 (filter (fun d => EntryDict.entry_id d =? Entry.entry_id e)
                    (entry_join s))).
  { apply filter_In; split; [exact Hj|apply Z.eqb_refl]. }
  destruct (filter _ (entry_join s)); [destruct Hf|discriminate].
Qed.

Lemma delete_referenced_parent_raises_blog_hi :
  (In hi_row (entries blog_hi) /\ In karen (authors blog_hi) /\
   In thoughts (topics blog_hi) /\
   Entry.author_id hi_row = Author.author_id karen /\
   Entry.topic_id hi_row = Topic.topic_id thoughts) /\
  delete_author 1 blog_hi = (Raises IntegrityError, blog_hi) /\
  delete_topic 1 blog_hi = (Raises IntegrityError, blog_hi) /\
  In hi_row (entries (snd (delete_author 1 blog_hi))) /\
  In hi_row (entries (snd (delete_topic 1 blog_hi))) /\
  In hi_dict (get_all_entries blog_hi) /\
  get_entry_by_id 1 blog_hi <> None.
Proof.
  split; [simpl; auto 10|].
  apply (delete_referenced_parent_raises blog_hi hi_row karen thoughts);
    simpl; auto.
Defined.

(** ** get-or-create twice *)

(** C2: [insert_author] (resp. [insert_topic]) called twice with one name
    returns both times the same row, which carries that name; neither call
    raises, and the second call leaves the store exactly as the first left
    it: it creates no row. *)
Theorem insert_twice_same_record (n : string) (s : db) :
  (exists r s1,
      insert_author n s = (Returns (Some r), s1) /\
      insert_author n s1 = (Returns (Some r), s1) /\
      Author.name r = n /\ In r (get_all_authors s1)) /\
  (exists r s1,
      insert_topic n s = (Returns (Some r), s1) /\
      insert_topic n s1 = (Returns (Some r), s1) /\
      Topic.topic r = n /\ In r (get_all_topics s1)).
Proof.
  split.
  - destruct (insert_author_spec n s) as (r & s1 & H1 & Hg & Hn & Hin & _).
    exists r, s1; repeat split; auto.
    unfold insert_author, bind, insert_or_ignore_author, query.
    replace (existsb _ (authors s1)) with true; [now rewrite Hg|].
    symmetry; apply name_known; rewrite <- Hn; now apply in_map.
  - destruct (insert_topic_spec n s) as (r & s1 & H1 & Hg & Hn & Hin & _).
    exists r, s1; repeat split; auto.
    unfold insert_topic, bind, insert_or_ignore_topic, query.
    replace (existsb _ (topics s1)) with true; [now rewrite Hg|].
    symmetry; apply name_known; rewrite <- Hn; now apply in_map.
Qed.

(** ** insert_entry and get_entry_by_id *)

(** C3: in a store that satisfies its schema, [insert_entry t c a tp]
    returns the record of the entry it created - new entry id, the given
    title and content, the author and topic names together with the ids of
    the rows that carry them - and [get_entry_by_id] on that entry id then
    returns the same record. *)
Theorem insert_entry_round_trip (t c a tp : string) (s : db) :
  wf s ->
  exists d s',
    insert_entry t c a tp s = (Returns (Some d), s') /\
    get_entry_by_id (EntryDict.entry_id d) s' = Some d /\
    EntryDict.entry_id d = next_rowid (entry_ids s) /\
    ~ In (EntryDict.entry_id d) (entry_ids s) /\
    EntryDict.title d = t /\ EntryDict.content d = c /\
    EntryDict.author d = a /\ EntryDict.topic d = tp /\
    get_author_by_name a s'
    = Some (Author.mk (EntryDict.author_id d) a) /\
    get_topic_by_name tp s'
    = Some (Topic.mk (EntryDict.topic_id d) tp) /\
    entries s'
    = entries s ++ [Entry.mk (EntryDict.entry_id d) t c
                      (EntryDict.author_id d) (EntryDict.topic_id d)].
Proof.
  intros W.
  destruct (insert_entry_spec t c a tp s W) as (ra & rt & H).
  cbv zeta in H.
  destruct H as (Hi & Hg & Hga & Hgt & Hna & Hnt & _ & _ & _).
  eexists; eexists; split; [exact Hi|].
  split; [exact Hg|]; simpl.
  split; [reflexivity|]; split; [apply next_rowid_fresh|].
  split; [reflexivity|]; split; [reflexivity|].
  split; [exact Hna|]; split; [exact Hnt|].
  destruct ra as [aid an], rt as [tid tn]; simpl in *; subst an tn.
  split; [exact Hga|]; split; [exact Hgt|reflexivity].
Qed.

Lemma insert_entry_round_trip_blog_hi :
  wf blog_hi /\
  exists d s',
    insert_entry "Hello" "Hello how are you" "Sam" "Stuff" blog_hi
    = (Returns (Some d), s') /\
    get_entry_by_id (EntryDict.entry_id d) s' = Some d /\
    EntryDict.entry_id d = next_rowid (entry_ids blog_hi) /\
    ~ In (EntryDict.entry_id d) (entry_ids blog_hi) /\
    EntryDict.title d = "Hello"%string /\
    EntryDict.content d = "Hello how are you"%string /\
    EntryDict.author d = "Sam"%string /\
    EntryDict.topic d = "Stuff"%string /\
    get_author_by_name "Sam" s'
    = Some (Author.mk (EntryDict.author_id d) "Sam") /\
    get_topic_by_name "Stuff" s'
    = Some (Topic.mk (EntryDict.topic_id d) "Stuff") /\
    entries s'
    = entries blog_hi
      ++ [Entry.mk (EntryDict.entry_id d) "Hello" "Hello how are you"
            (EntryDict.author_id d) (EntryDict.topic_id d)].
Proof.
  split; [exact blog_hi_wf|].
  apply (insert_entry_round_trip
           "Hello" "Hello how are you" "Sam" "Stuff" blog_hi).
  exact blog_hi_wf.
Defined.

(** C7: in a store that satisfies its schema, two successive [insert_entry]
    calls with the same four arguments both return, with records whose
    entry ids differ, and the entry table ends with the two new rows. *)
Theorem insert_entry_twice_distinct (t c a tp : string) (s : db) :
  wf s ->
  exists d1 s1 d2 s2,
    insert_entry t c a tp s = (Returns (Some d1), s1) /\
    insert_entry t c a tp s1 = (Returns (Some d2), s2) /\
    EntryDict.entry_id d1 <> EntryDict.entry_id d2 /\
    entries s2
    = entries s
      ++ [Entry.mk (EntryDict.entry_id d1) t c
            (EntryDict.author_id d1) (EntryDict.topic_id d1);
          Entry.mk (EntryDict.entry_id d2) t c
            (EntryDict.author_id d2) (EntryDict.topic_id d2)] /\
    (EntryDict.title d1 = t /\ EntryDict.content d1 = c /\
     EntryDict.author d1 = a /\ EntryDict.topic d1 = tp) /\
    (EntryDict.title d2 = t /\ EntryDict.content d2 = c /\
     EntryDict.author d2 = a /\ EntryDict.topic d2 = tp).
Proof.
  intros W.
  destruct (insert_entry_spec t c a tp s W) as (ra & rt & H).
  cbv zeta in H.
  destruct H as (Hi & _ & _ & _ & Hna & Hnt & _ & _ & W1).
  match type of W1 with wf ?x => set (s1 := x) in * end.
  destruct (insert_entry_spec t c a tp s1 W1) as (ra' & rt' & H).
  cbv zeta in H.
  destruct H as (Hi' & _ & _ & _ & Hna' & Hnt' & _ & _ & _).
  eexists; exists s1; eexists; eexists.
  split; [exact Hi|]; split; [exact Hi'|].
  split; [|split; [|simpl; auto 10]].
  - simpl; intros E.
    apply (next_rowid_fresh (entry_ids s1)); rewrite <- E.
    unfold entry_ids, s1; simpl; rewrite map_app.
    apply in_or_app; right; now left.
  - simpl entries at 1.
    unfold s1 at 1; simpl entries at 1.
    rewrite <- app_assoc; reflexivity.
Qed.

Lemma insert_entry_twice_distinct_fresh :
  wf create_tables /\
  exists d1 s1 d2 s2,
    insert_entry "Hi" ":)" "Karen" "Thoughts" create_tables
    = (Returns (Some d1), s1) /\
    insert_entry "Hi" ":)" "Karen" "Thoughts" s1 = (Returns (Some d2), s2) /\
    EntryDict.entry_id d1 <> EntryDict.entry_id d2 /\
    entries s2
    = entries create_tables
      ++ [Entry.mk (EntryDict.entry_id d1) "Hi" ":)"
            (EntryDict.author_id d1) (EntryDict.topic_id d1);
          Entry.mk (EntryDict.entry_id d2) "Hi" ":)"
            (EntryDict.author_id d2) (EntryDict.topic_id d2)] /\
    (EntryDict.title d1 = "Hi"%string /\ EntryDict.content d1 = ":)"%string /\
     EntryDict.author d1 = "Karen"%string /\
     EntryDict.topic d1 = "Thoughts"%string) /\
    (EntryDict.title d2 = "Hi"%string /\ EntryDict.content d2 = ":)"%string /\
     EntryDict.author d2 = "Karen"%string /\
     EntryDict.topic d2 = "Thoughts"%string).
Proof.
  split; [exact create_tables_wf|].
  apply (insert_entry_twice_distinct "Hi" ":)" "Karen" "Thoughts"
           create_tables).
  exact create_tables_wf.
Defined.

(** ** Deletes and the reads that follow *)

(** An id that fits is bound as it is: the method runs its statement. *)
Lemma bound_id_runs_statement (k : kind) (id : Z) (s : db) :
  in_int64 id = true ->
  BlogDatabase.delete k id s = delete k id s /\
  BlogDatabase.get_topic_by_id id s = (Returns (get_topic_by_id id s), s) /\
  BlogDatabase.get_author_by_id id s = (Returns (get_author_by_id id s), s) /\
  BlogDatabase.get_entry_by_id id s = (Returns (get_entry_by_id id s), s).
Proof.
  intros I.
  unfold BlogDatabase.get_topic_by_id, BlogDatabase.get_author_by_id,
    BlogDatabase.get_entry_by_id.
  destruct k; simpl;
    unfold BlogDatabase.delete_topic, BlogDatabase.delete_author,
      BlogDatabase.delete_entry, bind_int;
    rewrite I; repeat split.
Qed.

(** C5, as the specification words it, fails for authors: in the store
    holding the entry "Hi" by Karen the author id 1 is present,
    [delete_author 1] raises, and [get_author_by_id 1] afterwards still
    returns Karen. *)
Lemma delete_author_then_get_blog_hi :
  get_author_by_id 1 blog_hi = Some karen /\
  fst (delete_author 1 blog_hi) = Raises IntegrityError /\
  get_author_by_id 1 (snd (delete_author 1 blog_hi)) <> None.
Proof. repeat split; discriminate. Qed.

(** C5 (amended): for each kind of row and every id that a row of that
    kind carries: when no entry row references the id - always so for an
    entry id - [delete_X id] returns and [get_X_by_id id] then yields None;
    when an entry row references the author or topic id, the delete raises
    IntegrityError, the store is as it was and [get_X_by_id id] still
    returns a row. *)
Theorem delete_then_get_by_id (k : kind) (id : Z) (s : db) :
  In id (ids_of k s) ->
  delete k id s
  = (if referenced k id s then Raises IntegrityError else Returns tt,
     if referenced k id s then s else snd (delete k id s)) /\
  (if referenced k id s
   then ~ absent_by_id k id (snd (delete k id s))
   else absent_by_id k id (snd (delete k id s))).
Proof.
  intros P; destruct k; simpl in *.
  - apply (key_present_exists Topic.topic_id) in P.
    fold (topic_present id s) in P.
    rewrite delete_topic_eq, P; simpl andb.
    destruct (topic_referenced id s); simpl; split; auto.
    + unfold get_topic_by_id, topic_present in *.
      destruct (fetch_present _ _ P) as [r ->]; discriminate.
    + unfold get_topic_by_id; simpl.
      rewrite (filter_key_absent Topic.topic_id); [reflexivity|].
      apply key_absent_after_delete.
  - apply (key_present_exists Author.author_id) in P.
    fold (author_present id s) in P.
    rewrite delete_author_eq, P; simpl andb.
    destruct (author_referenced id s); simpl; split; auto.
    + unfold get_author_by_id, author_present in *.
      destruct (fetch_present _ _ P) as [r ->]; discriminate.
    + unfold get_author_by_id; simpl.
      rewrite (filter_key_absent Author.author_id); [reflexivity|].
      apply key_absent_after_delete.
  - split; [reflexivity|].
    rewrite get_entry_by_id_lookup; simpl.
    rewrite (filter_key_absent Entry.entry_id); [reflexivity|].
    apply key_absent_after_delete.
Qed.

Lemma delete_then_get_by_id_blog_hi :
  In 1 (ids_of KEntry blog_hi) /\
  delete KEntry 1 blog_hi
  = (if referenced KEntry 1 blog_hi
     then Raises IntegrityError else Returns tt,
     if referenced KEntry 1 blog_hi
     then blog_hi else snd (delete KEntry 1 blog_hi)) /\
  (if referenced KEntry 1 blog_hi
   then ~ absent_by_id KEntry 1 (snd (delete KEntry 1 blog_hi))
   else absent_by_id KEntry 1 (snd (delete KEntry 1 blog_hi))).
Proof.
  split; [simpl; auto|].
  apply (delete_then_get_by_id KEntry 1 blog_hi); simpl; auto.
Defined.

(** C8, as the specification words it, fails at an id that does not fit a
    signed 64-bit integer: no author row carries 2^63, yet
    [delete_author] on it does not return, it raises OverflowError. *)
Lemma delete_too_large_id_raises :
  ~ In too_large (ids_of KAuthor blog_hi) /\
  BlogDatabase.delete_author too_large blog_hi
  = (Raises OverflowError, blog_hi) /\
  fst (BlogDatabase.delete_author too_large blog_hi) <> Returns tt.
Proof.
  split; [|split; [reflexivity|discriminate]].
  simpl; intros [H|[]]; discriminate H.
Qed.

(** C8 (amended): for each kind of row and every id that no row of that
    kind carries, [delete_X id] returns without raising when the id fits a
    signed 64-bit integer and raises OverflowError when it does not; in
    both cases the store is left as it was, so every read gives what it
    gave before. *)
Theorem delete_absent_is_noop (k : kind) (id : Z) (s : db) :
  ~ In id (ids_of k s) ->
  BlogDatabase.delete k id s
  = (if in_int64 id then Returns tt else Raises OverflowError, s) /\
  forall (A : Type) (read : db -> A),
    read (snd (BlogDatabase.delete k id s)) = read s.
Proof.
  intros H.
  assert (E : delete k id s = (Returns tt, s)).
  { destruct k; simpl in *.
    - rewrite delete_topic_eq.
      replace (topic_present id s) with false.
      2:{ symmetry; apply not_true_is_false; intros P.
          now apply (key_present_exists Topic.topic_id) in P. }
      simpl; unfold set_topics.
      rewrite (filter_negb_key_absent Topic.topic_id) by exact H.
      now rewrite db_eta.
    - rewrite delete_author_eq.
      replace (author_present id s) with false.
      2:{ symmetry; apply not_true_is_false; intros P.
          now apply (key_present_exists Author.author_id) in P. }
      simpl; unfold set_authors.
      rewrite (filter_negb_key_absent Author.author_id) by exact H.
      now rewrite db_eta.
    - unfold delete_entry, set_entries.
      rewrite (filter_negb_key_absent Entry.entry_id) by exact H.
      now rewrite db_eta. }
  assert (E' : BlogDatabase.delete k id s
               = (if in_int64 id then Returns tt else Raises OverflowError,
                  s)).
  { destruct k; simpl in E |- *;
      unfold BlogDatabase.delete_topic, BlogDatabase.delete_author,
        BlogDatabase.delete_entry, bind_int;
      destruct (in_int64 id); auto. }
  split; [exact E'|]; intros A read; now rewrite E'.
Qed.

Lemma delete_absent_is_noop_blog_hi :
  ~ In 7 (ids_of KAuthor blog_hi) /\
  BlogDatabase.delete KAuthor 7 blog_hi
  = (if in_int64 7 then Returns tt else Raises OverflowError, blog_hi) /\
  forall (A : Type) (read : db -> A),
    read (snd (BlogDatabase.delete KAuthor 7 blog_hi)) = read blog_hi.
Proof.
  assert (H7 : ~ In 7 (ids_of KAuthor blog_hi))
    by (simpl; intros [H|[]]; discriminate H).
  split; [exact H7|].
  apply (delete_absent_is_noop KAuthor 7 blog_hi); exact H7.
Defined.

(** C10: [delete_entry] leaves the author and topic tables alone:
    [get_all_authors] and [get_all_topics] return after the call what they
    returned before it, whatever the store and the id. *)
Theorem delete_entry_keeps_authors_topics (id : Z) (s : db) :
  fst (delete_entry id s) = Returns tt /\
  get_all_authors (snd (delete_entry id s)) = get_all_authors s /\
  get_all_topics (snd (delete_entry id s)) = get_all_topics s.
Proof. repeat split. Qed.

(** ** Records built by the join *)

Lemma joined_consistent (s : db) (d : EntryDict.t) :
  wf s -> In d (entry_join s) ->
  get_author_by_id (EntryDict.author_id d) s
  = Some (Author.mk (EntryDict.author_id d) (EntryDict.author d)) /\
  get_topic_by_id (EntryDict.topic_id d) s
  = Some (Topic.mk (EntryDict.topic_id d) (EntryDict.topic d)).
Proof.
  intros W Hd; apply entry_join_In in Hd.
  destruct Hd as (e & a & t & _ & Ha & Ht & _ & _ & ->); simpl.
  unfold get_author_by_id, get_topic_by_id.
  rewrite (filter_key_unique Author.author_id)
    by (auto; apply (author_pk s W)).
  rewrite (filter_key_unique Topic.topic_id)
    by (auto; apply (topic_pk s W)).
  now destruct a, t.
Qed.

(** C9: in every store of a lifetime, each record of [get_all_entries] and
    each record [get_entry_by_id] returns carries as [author] the name of
    the author row whose id is its [author_id], and as [topic] the name of
    the topic row whose id is its [topic_id]. *)
Theorem entry_record_consistent (s : db) :
  reachable s ->
  (forall d,
      In d (get_all_entries s) ->
      get_author_by_id (EntryDict.author_id d) s
      = Some (Author.mk (EntryDict.author_id d) (EntryDict.author d)) /\
      get_topic_by_id (EntryDict.topic_id d) s
      = Some (Topic.mk (EntryDict.topic_id d) (EntryDict.topic d))) /\
  (forall id d,
      get_entry_by_id id s = Some d ->
      EntryDict.entry_id d = id /\
      get_author_by_id (EntryDict.author_id d) s
      = Some (Author.mk (EntryDict.author_id d) (EntryDict.author d)) /\
      get_topic_by_id (EntryDict.topic_id d) s
      = Some (Topic.mk (EntryDict.topic_id d) (EntryDict.topic d))).
Proof.
  intros R; apply reachable_wf in R; split.
  - intros d Hd; now apply joined_consistent.
  - intros id d Hd; apply fetch_some in Hd; destruct Hd as [Hd Hid].
    split; [now apply Z.eqb_eq|now apply joined_consistent].
Qed.

Lemma entry_record_consistent_blog_hi :
  reachable blog_hi /\
  (forall d,
      In d (get_all_entries blog_hi) ->
      get_author_by_id (EntryDict.author_id d) blog_hi
      = Some (Author.mk (EntryDict.author_id d) (EntryDict.author d)) /\
      get_topic_by_id (EntryDict.topic_id d) blog_hi
      = Some (Topic.mk (EntryDict.topic_id d) (EntryDict.topic d))) /\
  (forall id d,
      get_entry_by_id id blog_hi = Some d ->
      EntryDict.entry_id d = id /\
      get_author_by_id (EntryDict.author_id d) blog_hi
      = Some (Author.mk (EntryDict.author_id d) (EntryDict.author d)) /\
      get_topic_by_id (EntryDict.topic_id d) blog_hi
      = Some (Topic.mk (EntryDict.topic_id d) (EntryDict.topic d))).
Proof.
  split; [exists hi_ops; reflexivity|].
  apply (entry_record_consistent blog_hi).
  exists hi_ops; reflexivity.
Defined.

(** ** How the key lists grow *)

Lemma insert_author_ids (n : string) (s : db) :
  topic_ids (snd (insert_author n s)) = topic_ids s /\
  entry_ids (snd (insert_author n s)) = entry_ids s /\
  (author_ids (snd (insert_author n s)) = author_ids s \/
   author_ids (snd (insert_author n s))
   = author_ids s ++ [next_rowid (author_ids s)]).
Proof.
  destruct (insert_author_spec n s) as (r & s' & -> & _ & _ & _ & H); simpl.
  destruct H as [->|(_ & -> & ->)]; auto.
  repeat split; right.
  unfold author_ids; simpl; now rewrite map_app.
Qed.

Lemma insert_topic_ids (n : string) (s : db) :
  author_ids (snd (insert_topic n s)) = author_ids s /\
  entry_ids (snd (insert_topic n s)) = entry_ids s /\
  (topic_ids (snd (insert_topic n s)) = topic_ids s \/
   topic_ids (snd (insert_topic n s))
   = topic_ids s ++ [next_rowid (topic_ids s)]).
Proof.
  destruct (insert_topic_spec n s) as (r & s' & -> & _ & _ & _ & H); simpl.
  destruct H as [->|(_ & -> & ->)]; auto.
  repeat split; right.
  unfold topic_ids; simpl; now rewrite map_app.
Qed.

Lemma insert_entry_ids (t c a tp : string) (s : db) :
  wf s ->
  entry_ids (snd (insert_entry t c a tp s))
  = entry_ids s ++ [next_rowid (entry_ids s)] /\
  (author_ids (snd (insert_entry t c a tp s)) = author_ids s \/
   author_ids (snd (insert_entry t c a tp s))
   = author_ids s ++ [next_rowid (author_ids s)]) /\
  (topic_ids (snd (insert_entry t c a tp s)) = topic_ids s \/
   topic_ids (snd (insert_entry t c a tp s))
   = topic_ids s ++ [next_rowid (topic_ids s)]).
Proof.
  intros W.
  destruct (insert_entry_spec t c a tp s W) as (ra & rt & H).
  cbv zeta in H; destruct H as (-> & _); simpl.
  destruct (insert_author_ids a s) as (T1 & _ & A1).
  destruct (insert_topic_ids tp (snd (insert_author a s))) as (A2 & _ & T2).
  split; [|split].
  - unfold entry_ids; simpl; now rewrite map_app.
  - change (author_ids (set_entries ?l ?x)) with (author_ids x).
    unfold resolved; rewrite A2; exact A1.
  - change (topic_ids (set_entries ?l ?x)) with (topic_ids x).
    unfold resolved; rewrite <- T1; exact T2.
Qed.

Lemma exec_grows (k : kind) (o : op) (s : db) :
  wf s -> is_delete o = false ->
  ids_of k (exec o s) = ids_of k s \/
  ids_of k (exec o s) = ids_of k s ++ [next_rowid (ids_of k s)].
Proof.
  intros W Ho; unfold exec.
  destruct o; try discriminate Ho; simpl perform; rewrite snd_then_ret.
  - destruct (insert_topic_ids topic s) as (A & E & T).
    destruct k; simpl; auto.
  - destruct (insert_author_ids name s) as (T & E & A).
    destruct k; simpl; auto.
  - destruct (insert_entry_ids title content author topic s W) as (E & A & T).
    destruct k; simpl; auto.
Qed.

Lemma exec_entry_count (o : op) (s : db) :
  wf s -> is_delete o = false ->
  List.length (entries (exec o s))
  = (List.length (entries s) + (if is_insert_entry o then 1 else 0))%nat.
Proof.
  intros W Ho.
  rewrite <- !(length_map Entry.entry_id).
  fold (entry_ids s); fold (entry_ids (exec o s)).
  unfold exec.
  destruct o; try discriminate Ho; simpl perform; rewrite snd_then_ret; simpl.
  - destruct (insert_topic_ids topic s) as (_ & -> & _); lia.
  - destruct (insert_author_ids name s) as (_ & -> & _); lia.
  - destruct (insert_entry_ids title content author topic s W) as (-> & _).
    now rewrite length_app.
Qed.

Lemma run_entry_count (ops : list op) (s : db) :
  wf s -> forallb (fun o => negb (is_delete o)) ops = true ->
  List.length (entries (run ops s))
  = (List.length (entries s)
     + List.length (filter is_insert_entry ops))%nat.
Proof.
  revert s; induction ops as [|o ops IH]; intros s W H; simpl in *; [lia|].
  apply andb_true_iff in H; destruct H as [Ho H].
  apply negb_true_iff in Ho.
  rewrite IH by (auto using exec_wf).
  rewrite exec_entry_count by assumption.
  destruct (is_insert_entry o); simpl; lia.
Qed.

(** ** get_all_entries *)

(** C6: [get_all_entries] on the freshly created store is the empty list,
    and after any sequence of calls without a delete it has as many records
    as the sequence has [insert_entry] calls. *)
Theorem get_all_entries_length (ops : list op) :
  forallb (fun o => negb (is_delete o)) ops = true ->
  get_all_entries create_tables = [] /\
  List.length (get_all_entries (run ops create_tables))
  = List.length (filter is_insert_entry ops).
Proof.
  intros H; split; [reflexivity|].
  unfold get_all_entries.
  rewrite entry_join_length by apply run_wf, create_tables_wf.
  now rewrite run_entry_count by (auto using create_tables_wf).
Qed.

Lemma get_all_entries_length_two :
  forallb (fun o => negb (is_delete o))
    (hi_ops ++ [InsertEntry "Hello" "something??" "Karen" "Stuff"]) = true /\
  get_all_entries create_tables = [] /\
  List.length
    (get_all_entries
       (run (hi_ops ++ [InsertEntry "Hello" "something??" "Karen" "Stuff"])
          create_tables))
  = List.length
      (filter is_insert_entry
         (hi_ops ++ [InsertEntry "Hello" "something??" "Karen" "Stuff"])).
Proof.
  split; [reflexivity|].
  apply (get_all_entries_length
           (hi_ops ++ [InsertEntry "Hello" "something??" "Karen" "Stuff"])).
  reflexivity.
Defined.

(** ** Ids handed out along a lifetime *)

Lemma skipn_same {A} (l : list A) : skipn (List.length l) l = [].
Proof. apply skipn_all. Qed.

Lemma skipn_snoc {A} (l : list A) (x : A) :
  skipn (List.length l) (l ++ [x]) = [x].
Proof.
  rewrite skipn_app, skipn_all, Nat.sub_diag; reflexivity.
Qed.

Lemma id_log_increasing (k : kind) (ops : list op) (s : db) :
  wf s -> forallb (fun o => negb (is_delete o)) ops = true ->
  StronglySorted Z.lt (id_log (ids_of k) ops s) /\
  Forall (fun new => Forall (fun old => old < new) (ids_of k s))
    (id_log (ids_of k) ops s).
Proof.
  revert s; induction ops as [|o ops IH]; intros s W H; simpl in *.
  - split; constructor.
  - apply andb_true_iff in H; destruct H as [Ho H].
    apply negb_true_iff in Ho.
    destruct (IH (exec o s) (exec_wf o s W) H) as [S F].
    unfold assigned.
    destruct (exec_grows k o s W Ho) as [E|E]; rewrite E in *.
    + rewrite skipn_same; simpl; auto.
    + rewrite skipn_snoc; simpl; split.
      * constructor; [exact S|].
        eapply Forall_impl; [|exact F]; simpl; intros x Hx.
        rewrite Forall_forall in Hx; apply Hx.
        apply in_or_app; right; now left.
      * constructor; [apply next_rowid_above|].
        eapply Forall_impl; [|exact F]; simpl; intros x Hx.
        apply Forall_app in Hx; tauto.
Qed.

(** C4, as the specification words it, fails: create an author, delete it,
    create another one; both rows were given the id 1. *)
Lemma author_id_reused_after_delete :
  insert_author "Karen" create_tables
  = (Returns (Some (Author.mk 1 "Karen")), run [InsertAuthor "Karen"]
                                              create_tables) /\
  insert_author "Sam"
    (run [InsertAuthor "Karen"; DeleteAuthor 1] create_tables)
  = (Returns (Some (Author.mk 1 "Sam")), run reuse_ops create_tables) /\
  id_log author_ids reuse_ops create_tables = [1; 1] /\
  ~ StronglySorted Z.lt (id_log author_ids reuse_ops create_tables) /\
  ~ NoDup (id_log author_ids reuse_ops create_tables).
Proof.
  split; [reflexivity|]; split; [reflexivity|]; split; [reflexivity|].
  change (id_log author_ids reuse_ops create_tables) with [1; 1].
  split; intros H; inversion H as [|? ? H1 H2]; subst.
  - inversion H2 as [|? ? H3 _]; subst; lia.
  - apply H1; now left.
Qed.

Lemma consecutive_cons (n : Z) (m : nat) :
  n :: map (fun i => n + 1 + Z.of_nat i) (seq 0 m)
  = map (fun i => n + Z.of_nat i) (seq 0 (S m)).
Proof.
  cbn [seq map]; rewrite <- seq_shift, map_map.
  f_equal; [lia|].
  apply map_ext; intros i; lia.
Qed.

Lemma id_log_consecutive (k : kind) (ops : list op) (s : db) :
  wf s -> forallb (fun o => negb (is_delete o)) ops = true ->
  exists m,
    id_log (ids_of k) ops s
    = map (fun i => next_rowid (ids_of k s) + Z.of_nat i) (seq 0 m).
Proof.
  revert s; induction ops as [|o ops IH]; intros s W H; simpl in *.
  - now exists O.
  - apply andb_true_iff in H; destruct H as [Ho H].
    apply negb_true_iff in Ho.
    destruct (IH (exec o s) (exec_wf o s W) H) as [m E].
    unfold assigned; rewrite E.
    destruct (exec_grows k o s W Ho) as [G|G]; rewrite G.
    + rewrite skipn_same; now exists m.
    + rewrite skipn_snoc, next_rowid_after; exists (S m).
      apply consecutive_cons.
Qed.

(** C4 (amended): in a store reached by any calls, deletes included, the
    ids assigned to new rows of one kind over a following stretch of calls
    that contains no delete are consecutive integers: the first is 1 when
    the table is empty and the largest id present plus one otherwise, each
    later one is its predecessor plus one.  They are therefore strictly
    increasing and each is larger than every id of that kind present when
    the stretch began. *)
Theorem ids_increase_between_deletes (k : kind) (before ops : list op) :
  forallb (fun o => negb (is_delete o)) ops = true ->
  StronglySorted Z.lt
    (id_log (ids_of k) ops (run before create_tables)) /\
  Forall
    (fun new =>
       Forall (fun old => old < new) (ids_of k (run before create_tables)))
    (id_log (ids_of k) ops (run before create_tables)) /\
  id_log (ids_of k) ops (run before create_tables)
  = map (fun i =>
           next_rowid (ids_of k (run before create_tables)) + Z.of_nat i)
      (seq 0
         (List.length (id_log (ids_of k) ops (run before create_tables)))) /\
  ((ids_of k (run before create_tables) = [] /\
    next_rowid (ids_of k (run before create_tables)) = 1) \/
   (In (next_rowid (ids_of k (run before create_tables)) - 1)
      (ids_of k (run before create_tables)) /\
    Forall
      (fun old => old <= next_rowid (ids_of k (run before create_tables)) - 1)
      (ids_of k (run before create_tables)))).
Proof.
  intros H.
  assert (W : wf (run before create_tables))
    by apply run_wf, create_tables_wf.
  destruct (id_log_increasing k ops _ W H) as [S F].
  destruct (id_log_consecutive k ops _ W H) as [m E].
  split; [exact S|]; split; [exact F|]; split.
  - rewrite E at 1; rewrite E, length_map, length_seq; reflexivity.
  - apply next_rowid_largest_plus_one.
Qed.

Lemma ids_increase_between_deletes_authors :
  forallb (fun o => negb (is_delete o))
    [InsertAuthor "Nathan"; InsertEntry "Hi" ":)" "Karen" "Thoughts";
     InsertAuthor "Sam"] = true /\
  StronglySorted Z.lt
    (id_log (ids_of KAuthor)
       [InsertAuthor "Nathan"; InsertEntry "Hi" ":)" "Karen" "Thoughts";
        InsertAuthor "Sam"]
       (run reuse_ops create_tables)) /\
  Forall
    (fun new =>
       Forall (fun old => old < new)
         (ids_of KAuthor (run reuse_ops create_tables)))
    (id_log (ids_of KAuthor)
       [InsertAuthor "Nathan"; InsertEntry "Hi" ":)" "Karen" "Thoughts";
        InsertAuthor "Sam"]
       (run reuse_ops create_tables)) /\
  id_log (ids_of KAuthor)
    [InsertAuthor "Nathan"; InsertEntry "Hi" ":)" "Karen" "Thoughts";
     InsertAuthor "Sam"]
    (run reuse_ops create_tables)
  = map (fun i =>
           next_rowid (ids_of KAuthor (run reuse_ops create_tables))
           + Z.of_nat i)
      (seq 0
         (List.length
            (id_log (ids_of KAuthor)
               [InsertAuthor "Nathan";
                InsertEntry "Hi" ":)" "Karen" "Thoughts"; InsertAuthor "Sam"]
               (run reuse_ops create_tables)))) /\
  ((ids_of KAuthor (run reuse_ops create_tables) = [] /\
    next_rowid (ids_of KAuthor (run reuse_ops create_tables)) = 1) \/
   (In (next_rowid (ids_of KAuthor (run reuse_ops create_tables)) - 1)
      (ids_of KAuthor (run reuse_ops create_tables)) /\
    Forall
      (fun old =>
         old <= next_rowid (ids_of KAuthor (run reuse_ops create_tables)) - 1)
      (ids_of KAuthor (run reuse_ops create_tables)))).
Proof.
  split; [reflexivity|].
  apply (ids_increase_between_deletes KAuthor reuse_ops
           [InsertAuthor "Nathan"; InsertEntry "Hi" ":)" "Karen" "Thoughts";
            InsertAuthor "Sam"]).
  reflexivity.
Defined.

(** * Further properties of the store *)

(** ** The schema along a lifetime *)

(** X1: whatever calls are made on a freshly created store, and whether
    they return or raise, the store keeps its schema: ids and names are
    unique in their tables and every entry row points at an author row and
    a topic row that exist. *)
Theorem schema_kept_along_lifetime (ops : list op) :
  wf (run ops create_tables).
Proof. apply run_wf, create_tables_wf. Qed.

Lemma sorted_snoc (l : list Z) (x : Z) :
  StronglySorted Z.lt l -> Forall (fun i => i < x) l ->
  StronglySorted Z.lt (l ++ [x]).
Proof.
  induction l as [|y l IH]; simpl; intros S F.
  - repeat constructor.
  - apply StronglySorted_inv in S; destruct S as [S Hy].
    apply Forall_cons_iff in F; destruct F as [Hx F].
    constructor; [now apply IH|].
    apply Forall_app; split; [exact Hy|now repeat constructor].
Qed.

Lemma sorted_filter (p : Z -> bool) (l : list Z) :
  StronglySorted Z.lt l -> StronglySorted Z.lt (filter p l).
Proof.
  induction l as [|y l IH]; simpl; intros S; [constructor|].
  apply StronglySorted_inv in S; destruct S as [S Hy].
  destruct (p y); [constructor|]; auto.
  rewrite Forall_forall in *; intros z Hz; apply Hy.
  apply filter_In in Hz; tauto.
Qed.

Lemma ids_after_filter {A} (key : A -> Z) (id : Z) (l : list A) :
  map key (filter (fun r => negb (key r =? id)) l)
  = filter (fun i => negb (i =? id)) (map key l).
Proof.
  induction l as [|x l IH]; simpl; [reflexivity|].
  destruct (key x =? id); simpl; now rewrite IH.
Qed.

Lemma filter_everything {A} (l : list A) : filter (fun _ => true) l = l.
Proof. induction l as [|x l IH]; simpl; [reflexivity|now rewrite IH]. Qed.

(** A delete leaves in each table a selection of the ids it held. *)
Lemma exec_delete_ids (k : kind) (o : op) (s : db) :
  is_delete o = true ->
  exists p, ids_of k (exec o s) = filter p (ids_of k s).
Proof.
  intros Ho; unfold exec; destruct o; try discriminate Ho; simpl perform.
  - rewrite delete_topic_eq.
    destruct (topic_present _ s && topic_referenced _ s);
      [exists (fun _ => true); now rewrite filter_everything|].
    destruct k; simpl;
      try (exists (fun _ => true); now rewrite filter_everything).
    eexists; unfold topic_ids; simpl; apply ids_after_filter.
  - rewrite delete_author_eq.
    destruct (author_present _ s && author_referenced _ s);
      [exists (fun _ => true); now rewrite filter_everything|].
    destruct k; simpl;
      try (exists (fun _ => true); now rewrite filter_everything).
    eexists; unfold author_ids; simpl; apply ids_after_filter.
  - destruct k; simpl;
      try (exists (fun _ => true); now rewrite filter_everything).
    eexists; unfold entry_ids; simpl; apply ids_after_filter.
Qed.

Lemma next_rowid_positive (ids : list Z) :
  Forall (fun i => 1 <= i) ids -> 1 <= next_rowid ids.
Proof.
  destruct ids as [|i rest]; simpl; intros F; [lia|].
  apply Forall_cons_iff in F; destruct F as [Hi _].
  destruct (fold_max_bound rest i); lia.
Qed.

Lemma exec_ordered (k : kind) (o : op) (s : db) :
  wf s ->
  StronglySorted Z.lt (ids_of k s) /\ Forall (fun i => 1 <= i) (ids_of k s) ->
  StronglySorted Z.lt (ids_of k (exec o s)) /\
  Forall (fun i => 1 <= i) (ids_of k (exec o s)).
Proof.
  intros W [S F]; destruct (is_delete o) eqn:Ho.
  - destruct (exec_delete_ids k o s Ho) as [p ->]; split.
    + now apply sorted_filter.
    + rewrite Forall_forall in *; intros z Hz; apply F.
      apply filter_In in Hz; tauto.
  - destruct (exec_grows k o s W Ho) as [->| ->]; [auto|split].
    + apply sorted_snoc; [exact S|apply next_rowid_above].
    + apply Forall_app; split; [exact F|].
      repeat constructor; now apply next_rowid_positive.
Qed.

(** X2: in every store of a lifetime the rows of each table stand in
    strictly increasing id order, so [get_all_topics], [get_all_authors]
    and the entry scan deliver them by increasing id, and every id is at
    least 1. *)
Theorem rows_in_increasing_id_order (k : kind) (ops : list op) :
  StronglySorted Z.lt (ids_of k (run ops create_tables)) /\
  Forall (fun i => 1 <= i) (ids_of k (run ops create_tables)).
Proof.
  assert (H : forall s, wf s ->
            StronglySorted Z.lt (ids_of k s) /\
            Forall (fun i => 1 <= i) (ids_of k s) ->
            StronglySorted Z.lt (ids_of k (run ops s)) /\
            Forall (fun i => 1 <= i) (ids_of k (run ops s))).
  { induction ops as [|o ops IH]; intros s W H; simpl; [exact H|].
    apply IH; [now apply exec_wf|now apply exec_ordered]. }
  apply H; [apply create_tables_wf|].
  destruct k; split; constructor.
Qed.

(** ** Ids without deletes *)

Lemma next_rowid_count (n : nat) :
  next_rowid (map Z.of_nat (seq 1 n)) = Z.of_nat n + 1.
Proof.
  destruct n as [|n]; [reflexivity|].
  rewrite seq_S, map_app; simpl map.
  rewrite next_rowid_snoc; [lia|].
  apply Forall_forall; intros z Hz.
  apply in_map_iff in Hz; destruct Hz as (m & <- & Hm).
  apply in_seq in Hm; lia.
Qed.

Lemma run_consecutive (k : kind) (ops : list op) (s : db) (n : nat) :
  wf s -> forallb (fun o => negb (is_delete o)) ops = true ->
  ids_of k s = map Z.of_nat (seq 1 n) ->
  exists m, ids_of k (run ops s) = map Z.of_nat (seq 1 m).
Proof.
  revert s n; induction ops as [|o ops IH]; intros s n W H E; simpl in *.
  - now exists n.
  - apply andb_true_iff in H; destruct H as [Ho H].
    apply negb_true_iff in Ho.
    destruct (exec_grows k o s W Ho) as [G|G].
    + apply (IH (exec o s) n); auto using exec_wf; congruence.
    + apply (IH (exec o s) (S n)); auto using exec_wf.
      rewrite G, E, next_rowid_count, seq_S, map_app; simpl.
      do 2 f_equal; lia.
Qed.

(** X3: as long as nothing is deleted, the ids of each table are 1, 2,
    ..., n in this order, n being the number of its rows. *)
Theorem ids_consecutive_without_delete (k : kind) (ops : list op) :
  forallb (fun o => negb (is_delete o)) ops = true ->
  ids_of k (run ops create_tables)
  = map Z.of_nat
      (seq 1 (List.length (ids_of k (run ops create_tables)))).
Proof.
  intros H.
  destruct (run_consecutive k ops create_tables 0 create_tables_wf H)
    as [m E]; [now destruct k|].
  rewrite E at 1; rewrite E, length_map, length_seq; reflexivity.
Qed.

Lemma ids_consecutive_without_delete_hi :
  forallb (fun o => negb (is_delete o))
    (hi_ops ++ [InsertEntry "Hello" "something??" "Sam" "Stuff"]) = true /\
  ids_of KAuthor
    (run (hi_ops ++ [InsertEntry "Hello" "something??" "Sam" "Stuff"])
       create_tables)
  = map Z.of_nat
      (seq 1
         (List.length
            (ids_of KAuthor
               (run (hi_ops
                       ++ [InsertEntry "Hello" "something??" "Sam" "Stuff"])
                  create_tables)))).
Proof.
  split; [reflexivity|].
  apply (ids_consecutive_without_delete KAuthor
           (hi_ops ++ [InsertEntry "Hello" "something??" "Sam" "Stuff"])).
  reflexivity.
Defined.

(** ** Lookups *)

Lemma fetch_none_iff {A} (p : A -> bool) (l : list A) :
  row_to_dict (filter p l) = None <-> existsb p l = false.
Proof.
  split; intros H.
  - apply not_true_is_false; intros E.
    destruct (fetch_present p l E) as [r Hr]; congruence.
  - now rewrite (fetch_absent p l H).
Qed.

Lemma not_true_iff_absent (b : bool) (P : Prop) :
  (b = true <-> P) -> (b = false <-> ~ P).
Proof. destruct b; intuition congruence. Qed.

Lemma bound_lookup {A} (id : Z) (q : db -> option A) (s : db) :
  (bind_int id (query q) s = (Returns None, s)
   <-> in_int64 id = true /\ q s = None) /\
  (bind_int id (query q) s = (Raises OverflowError, s)
   <-> in_int64 id = false) /\
  (forall r, bind_int id (query q) s = (Returns (Some r), s) ->
             in_int64 id = true /\ q s = Some r).
Proof.
  unfold bind_int, query, raise; destruct (in_int64 id).
  - split; [|split].
    + split; [intros H; injection H as H; auto|intros [_ ->]; reflexivity].
    + split; discriminate.
    + intros r H; injection H as H; auto.
  - split; [|split].
    + split; [discriminate|intros [H _]; discriminate H].
    + split; reflexivity.
    + discriminate.
Qed.

(** X4: [get_author_by_id] and [get_topic_by_id] raise OverflowError
    exactly when the id does not fit a signed 64-bit integer, and return
    None exactly when it fits and no row of the table carries it;
    [get_author_by_name] and [get_topic_by_name] return None exactly when
    no row carries the name; a row a lookup returns is a row of the table
    and carries the key asked for. *)
Theorem lookup_none_iff_absent (id : Z) (n : string) (s : db) :
  (BlogDatabase.get_author_by_id id s = (Raises OverflowError, s)
   <-> in_int64 id = false) /\
  (BlogDatabase.get_author_by_id id s = (Returns None, s)
   <-> in_int64 id = true /\ ~ In id (author_ids s)) /\
  (get_author_by_name n s = None
   <-> ~ In n (map Author.name (get_all_authors s))) /\
  (BlogDatabase.get_topic_by_id id s = (Raises OverflowError, s)
   <-> in_int64 id = false) /\
  (BlogDatabase.get_topic_by_id id s = (Returns None, s)
   <-> in_int64 id = true /\ ~ In id (topic_ids s)) /\
  (get_topic_by_name n s = None
   <-> ~ In n (map Topic.topic (get_all_topics s))) /\
  (forall r, BlogDatabase.get_author_by_id id s = (Returns (Some r), s) ->
             In r (get_all_authors s) /\ Author.author_id r = id) /\
  (forall r, get_author_by_name n s = Some r ->
             In r (get_all_authors s) /\ Author.name r = n) /\
  (forall r, BlogDatabase.get_topic_by_id id s = (Returns (Some r), s) ->
             In r (get_all_topics s) /\ Topic.topic_id r = id) /\
  (forall r, get_topic_by_name n s = Some r ->
             In r (get_all_topics s) /\ Topic.topic r = n).
Proof.
  unfold BlogDatabase.get_author_by_id, BlogDatabase.get_topic_by_id.
  destruct (bound_lookup id (get_author_by_id id) s) as (Ao & An & As).
  destruct (bound_lookup id (get_topic_by_id id) s) as (To & Tn & Ts).
  assert (Pa : get_author_by_id id s = None <-> ~ In id (author_ids s)).
  { unfold get_author_by_id; rewrite fetch_none_iff.
    apply not_true_iff_absent, (key_present_exists Author.author_id). }
  assert (Pt : get_topic_by_id id s = None <-> ~ In id (topic_ids s)).
  { unfold get_topic_by_id; rewrite fetch_none_iff.
    apply not_true_iff_absent, (key_present_exists Topic.topic_id). }
  split; [exact An|]; split; [rewrite Ao, Pa; reflexivity|].
  split.
  { unfold get_author_by_name, get_all_authors.
    rewrite fetch_none_iff; apply not_true_iff_absent, name_known. }
  split; [exact Tn|]; split; [rewrite To, Pt; reflexivity|].
  split.
  { unfold get_topic_by_name, get_all_topics.
    rewrite fetch_none_iff; apply not_true_iff_absent, name_known. }
  unfold get_author_by_id, get_author_by_name, get_topic_by_id,
    get_topic_by_name, get_all_authors, get_all_topics in *.
  split; [|split; [|split]]; intros r H.
  - apply As in H; destruct H as [_ H].
    apply fetch_some in H; destruct H as [Hin Hk].
    split; [exact Hin|now apply Z.eqb_eq].
  - apply fetch_some in H; destruct H as [Hin Hk].
    split; [exact Hin|now apply String.eqb_eq].
  - apply Ts in H; destruct H as [_ H].
    apply fetch_some in H; destruct H as [Hin Hk].
    split; [exact Hin|now apply Z.eqb_eq].
  - apply fetch_some in H; destruct H as [Hin Hk].
    split; [exact Hin|now apply String.eqb_eq].
Qed.

Lemma entry_lookup_wf (id : Z) (s : db) :
  wf s -> (get_entry_by_id id s = None <-> ~ In id (entry_ids s)).
Proof.
  intros R; rewrite get_entry_by_id_lookup; split.
  - intros H Hin.
    apply (key_present_exists Entry.entry_id) in Hin.
    destruct (filter (fun e => Entry.entry_id e =? id) (entries s))
      as [|e l] eqn:E.
    + destruct (fetch_present _ _ Hin) as [r Hr].
      rewrite E in Hr; discriminate Hr.
    + assert (He : In e (entries s)).
      { apply (proj1 (filter_In (fun e => Entry.entry_id e =? id) e
                        (entries s))).
        rewrite E; now left. }
      destruct (join_rows_wf s e R He) as (a & t & _ & _ & _ & _ & J).
      simpl in H; rewrite J in H; discriminate.
  - intros H; now rewrite (filter_key_absent Entry.entry_id).
Qed.

(** X5: in every store of a lifetime [get_entry_by_id] raises
    OverflowError exactly when the id does not fit a signed 64-bit
    integer, and returns None exactly when it fits and no entry row
    carries it: the join hides no entry. *)
Theorem entry_none_iff_absent (id : Z) (s : db) :
  reachable s ->
  (BlogDatabase.get_entry_by_id id s = (Raises OverflowError, s)
   <-> in_int64 id = false) /\
  (BlogDatabase.get_entry_by_id id s = (Returns None, s)
   <-> in_int64 id = true /\ ~ In id (entry_ids s)).
Proof.
  intros R; apply reachable_wf in R.
  unfold BlogDatabase.get_entry_by_id.
  destruct (bound_lookup id (get_entry_by_id id) s) as (Eo & En & _).
  split; [exact En|].
  rewrite Eo, (entry_lookup_wf id s R); reflexivity.
Qed.

Lemma entry_none_iff_absent_blog_hi :
  reachable blog_hi /\
  (BlogDatabase.get_entry_by_id 2 blog_hi = (Raises OverflowError, blog_hi)
   <-> in_int64 2 = false) /\
  (BlogDatabase.get_entry_by_id 2 blog_hi = (Returns None, blog_hi)
   <-> in_int64 2 = true /\ ~ In 2 (entry_ids blog_hi)).
Proof.
  split; [exists hi_ops; reflexivity|].
  apply (entry_none_iff_absent 2 blog_hi).
  exists hi_ops; reflexivity.
Defined.

(** The ids just outside the signed 64-bit range are refused by the
    driver; the store is not touched. *)
Example lookup_of_too_large_id :
  BlogDatabase.get_author_by_id too_large blog_hi
  = (Raises OverflowError, blog_hi) /\
  BlogDatabase.get_entry_by_id (too_large - 1) blog_hi
  = (Returns None, blog_hi).
Proof. split; reflexivity. Qed.

(** The entry row a joined record was built from. *)
Lemma strip_joined (e : Entry.row) (a : Author.row) (t : Topic.row) :
  Author.author_id a = Entry.author_id e ->
  Topic.topic_id t = Entry.topic_id e ->
  Entry.mk (EntryDict.entry_id (joined e a t))
    (EntryDict.title (joined e a t)) (EntryDict.content (joined e a t))
    (EntryDict.author_id (joined e a t)) (EntryDict.topic_id (joined e a t))
  = e.
Proof. destruct e; simpl; intros -> ->; reflexivity. Qed.

(** X6: in every store of a lifetime [get_all_entries] has one record per
    entry row, in table order: dropping the two names from each record
    gives back the entry table. *)
Theorem get_all_entries_one_per_row (s : db) :
  reachable s ->
  map (fun d =>
         Entry.mk (EntryDict.entry_id d) (EntryDict.title d)
           (EntryDict.content d) (EntryDict.author_id d)
           (EntryDict.topic_id d))
    (get_all_entries s)
  = entries s.
Proof.
  intros R; apply reachable_wf in R.
  unfold get_all_entries, entry_join.
  assert (H : forall l, incl l (entries s) ->
            map (fun d =>
                   Entry.mk (EntryDict.entry_id d) (EntryDict.title d)
                     (EntryDict.content d) (EntryDict.author_id d)
                     (EntryDict.topic_id d))
              (flat_map (join_rows s) l) = l).
  { induction l as [|e l IH]; simpl; intros Hl; [reflexivity|].
    destruct (join_rows_wf s e R) as (a & t & _ & _ & Ea & Et & ->).
    - apply Hl; now left.
    - simpl app; simpl map.
      rewrite IH by (intros x Hx; apply Hl; now right).
      f_equal; now apply strip_joined. }
  apply H, incl_refl.
Qed.

Lemma get_all_entries_one_per_row_blog_hi :
  reachable blog_hi /\
  map (fun d =>
         Entry.mk (EntryDict.entry_id d) (EntryDict.title d)
           (EntryDict.content d) (EntryDict.author_id d)
           (EntryDict.topic_id d))
    (get_all_entries blog_hi)
  = entries blog_hi.
Proof.
  split; [exists hi_ops; reflexivity|].
  apply (get_all_entries_one_per_row blog_hi).
  exists hi_ops; reflexivity.
Defined.

Lemma filter_name_unique {A} (nm : A -> string) (l : list A) (x : A) :
  NoDup (map nm l) -> In x l ->
  filter (fun r => String.eqb (nm r) (nm x)) l = [x].
Proof.
  induction l as [|y l IH]; simpl; intros ND Hin; [contradiction|].
  apply NoDup_cons_iff in ND; destruct ND as [Hy ND].
  destruct Hin as [->|Hin].
  - rewrite String.eqb_refl; f_equal.
    apply fetch_absent, not_true_is_false; intros E.
    now apply name_known in E.
  - destruct (String.eqb_spec (nm y) (nm x)) as [E|E].
    + exfalso; apply Hy; rewrite E; now apply in_map.
    + now apply IH.
Qed.

(** X7: in every store of a lifetime each row listed by [get_all_authors]
    is the one [get_author_by_id] returns for its id and the one
    [get_author_by_name] returns for its name; likewise for topics. *)
Theorem listed_rows_are_found (s : db) (a : Author.row) (t : Topic.row) :
  reachable s ->
  In a (get_all_authors s) -> In t (get_all_topics s) ->
  get_author_by_id (Author.author_id a) s = Some a /\
  get_author_by_name (Author.name a) s = Some a /\
  get_topic_by_id (Topic.topic_id t) s = Some t /\
  get_topic_by_name (Topic.topic t) s = Some t.
Proof.
  intros R Ha Ht; apply reachable_wf in R; destruct R.
  unfold get_author_by_id, get_author_by_name, get_topic_by_id,
    get_topic_by_name, get_all_authors, get_all_topics in *.
  rewrite (filter_key_unique Author.author_id),
    (filter_key_unique Topic.topic_id),
    (filter_name_unique Author.name),
    (filter_name_unique Topic.topic) by assumption.
  auto.
Qed.

Lemma listed_rows_are_found_blog_hi :
  (reachable blog_hi /\ In karen (get_all_authors blog_hi) /\
   In thoughts (get_all_topics blog_hi)) /\
  get_author_by_id (Author.author_id karen) blog_hi = Some karen /\
  get_author_by_name (Author.name karen) blog_hi = Some karen /\
  get_topic_by_id (Topic.topic_id thoughts) blog_hi = Some thoughts /\
  get_topic_by_name (Topic.topic thoughts) blog_hi = Some thoughts.
Proof.
  assert (R : reachable blog_hi) by (exists hi_ops; reflexivity).
  split; [split; [exact R|simpl; auto]|].
  apply (listed_rows_are_found blog_hi karen thoughts);
    [exact R|simpl; auto|simpl; auto].
Defined.

(** ** What a call leaves alone *)

Lemma flat_map_agree {A B} (f g : A -> list B) (l : list A) :
  (forall x, In x l -> f x = g x) -> flat_map f l = flat_map g l.
Proof.
  induction l as [|x l IH]; simpl; intros H; [reflexivity|].
  rewrite (H x (or_introl eq_refl)), IH; auto.
Qed.

Lemma filter_snoc_other {A} (key : A -> Z) (l : list A) (x : A) (k : Z) :
  key x <> k ->
  filter (fun r => key r =? k) (l ++ [x]) = filter (fun r => key r =? k) l.
Proof.
  intros H; rewrite filter_app; simpl.
  apply Z.eqb_neq in H; rewrite H; apply app_nil_r.
Qed.

Lemma filter_other_after_delete {A} (key : A -> Z) (l : list A) (k id : Z) :
  k <> id ->
  filter (fun r => key r =? k) (filter (fun r => negb (key r =? id)) l)
  = filter (fun r => key r =? k) l.
Proof.
  intros H; induction l as [|x l IH]; simpl; [reflexivity|].
  destruct (Z.eqb_spec (key x) id) as [E|E]; simpl.
  - rewrite IH; destruct (Z.eqb_spec (key x) k); [congruence|reflexivity].
  - now rewrite IH.
Qed.

Lemma join_rows_new_author (s : db) (r : Author.row) (e : Entry.row) :
  Entry.author_id e <> Author.author_id r ->
  join_rows (set_authors (authors s ++ [r]) s) e = join_rows s e.
Proof.
  intros H; rewrite !join_rows_lookup; simpl.
  rewrite (filter_snoc_other Author.author_id); [reflexivity|congruence].
Qed.

Lemma join_rows_new_topic (s : db) (r : Topic.row) (e : Entry.row) :
  Entry.topic_id e <> Topic.topic_id r ->
  join_rows (set_topics (topics s ++ [r]) s) e = join_rows s e.
Proof.
  intros H; rewrite !join_rows_lookup; simpl.
  rewrite (filter_snoc_other Topic.topic_id); [reflexivity|congruence].
Qed.

Lemma insert_author_keeps_join (n : string) (s : db) :
  wf s -> entry_join (snd (insert_author n s)) = entry_join s.
Proof.
  intros W.
  destruct (insert_author_spec n s) as (r & s' & -> & _ & _ & _ & H); simpl.
  destruct H as [->|(_ & -> & ->)]; [reflexivity|].
  unfold entry_join; simpl entries.
  apply flat_map_agree; intros e He.
  apply join_rows_new_author; simpl; intros E.
  apply (next_rowid_fresh (author_ids s)); rewrite <- E.
  now apply (entry_author_fk s W).
Qed.

Lemma insert_topic_keeps_join (n : string) (s : db) :
  wf s -> entry_join (snd (insert_topic n s)) = entry_join s.
Proof.
  intros W.
  destruct (insert_topic_spec n s) as (r & s' & -> & _ & _ & _ & H); simpl.
  destruct H as [->|(_ & -> & ->)]; [reflexivity|].
  unfold entry_join; simpl entries.
  apply flat_map_agree; intros e He.
  apply join_rows_new_topic; simpl; intros E.
  apply (next_rowid_fresh (topic_ids s)); rewrite <- E.
  now apply (entry_topic_fk s W).
Qed.

(** X8: in a store that satisfies its schema, [insert_author] returns a row
    that [get_author_by_id] finds under its id, and changes nothing else:
    every id and every name that was present is looked up as before, and
    [get_all_topics] and [get_all_entries] return what they returned. *)
Theorem insert_author_frame (n : string) (s : db) :
  wf s ->
  exists r s',
    insert_author n s = (Returns (Some r), s') /\
    get_author_by_id (Author.author_id r) s' = Some r /\
    (forall id, In id (author_ids s) ->
                get_author_by_id id s' = get_author_by_id id s) /\
    (forall m, In m (map Author.name (authors s)) ->
               get_author_by_name m s' = get_author_by_name m s) /\
    get_all_topics s' = get_all_topics s /\
    get_all_entries s' = get_all_entries s.
Proof.
  intros W.
  pose proof (insert_author_keeps_join n s W) as J.
  pose proof (insert_author_wf n s W) as W'.
  destruct (insert_author_spec n s) as (r & s' & E & _ & _ & Hin & H).
  rewrite E in J, W'; simpl in J, W'.
  exists r, s'; split; [exact E|].
  split; [|split; [|split; [|split; [|exact J]]]].
  - unfold get_author_by_id.
    rewrite (filter_key_unique Author.author_id); auto.
    apply (author_pk s' W').
  - intros id Hid; destruct H as [->|(_ & -> & ->)]; [reflexivity|].
    unfold get_author_by_id; simpl.
    rewrite (filter_snoc_other Author.author_id); [reflexivity|].
    simpl; intros <-; now apply (next_rowid_fresh (author_ids s)).
  - intros m Hm; destruct H as [->|(Hn & -> & ->)]; [reflexivity|].
    unfold get_author_by_name; simpl.
    rewrite filter_app; simpl.
    destruct (String.eqb_spec n m) as [<-|_]; [contradiction|].
    now rewrite app_nil_r.
  - destruct H as [->|(_ & _ & ->)]; reflexivity.
Qed.

Lemma insert_author_frame_blog_hi :
  wf blog_hi /\
  exists r s',
    insert_author "Sam" blog_hi = (Returns (Some r), s') /\
    get_author_by_id (Author.author_id r) s' = Some r /\
    (forall id, In id (author_ids blog_hi) ->
                get_author_by_id id s' = get_author_by_id id blog_hi) /\
    (forall m, In m (map Author.name (authors blog_hi)) ->
               get_author_by_name m s' = get_author_by_name m blog_hi) /\
    get_all_topics s' = get_all_topics blog_hi /\
    get_all_entries s' = get_all_entries blog_hi.
Proof.
  split; [exact blog_hi_wf|].
  apply (insert_author_frame "Sam" blog_hi); exact blog_hi_wf.
Defined.

(** X9: the same for [insert_topic]: the row it returns is found under its
    id, topics that were present are looked up as before, and
    [get_all_authors] and [get_all_entries] are unchanged. *)
Theorem insert_topic_frame (n : string) (s : db) :
  wf s ->
  exists r s',
    insert_topic n s = (Returns (Some r), s') /\
    get_topic_by_id (Topic.topic_id r) s' = Some r /\
    (forall id, In id (topic_ids s) ->
                get_topic_by_id id s' = get_topic_by_id id s) /\
    (forall m, In m (map Topic.topic (topics s)) ->
               get_topic_by_name m s' = get_topic_by_name m s) /\
    get_all_authors s' = get_all_authors s /\
    get_all_entries s' = get_all_entries s.
Proof.
  intros W.
  pose proof (insert_topic_keeps_join n s W) as J.
  pose proof (insert_topic_wf n s W) as W'.
  destruct (insert_topic_spec n s) as (r & s' & E & _ & _ & Hin & H).
  rewrite E in J, W'; simpl in J, W'.
  exists r, s'; split; [exact E|].
  split; [|split; [|split; [|split; [|exact J]]]].
  - unfold get_topic_by_id.
    rewrite (filter_key_unique Topic.topic_id); auto.
    apply (topic_pk s' W').
  - intros id Hid; destruct H as [->|(_ & -> & ->)]; [reflexivity|].
    unfold get_topic_by_id; simpl.
    rewrite (filter_snoc_other Topic.topic_id); [reflexivity|].
    simpl; intros <-; now apply (next_rowid_fresh (topic_ids s)).
  - intros m Hm; destruct H as [->|(Hn & -> & ->)]; [reflexivity|].
    unfold get_topic_by_name; simpl.
    rewrite filter_app; simpl.
    destruct (String.eqb_spec n m) as [<-|_]; [contradiction|].
    now rewrite app_nil_r.
  - destruct H as [->|(_ & _ & ->)]; reflexivity.
Qed.

Lemma insert_topic_frame_blog_hi :
  wf blog_hi /\
  exists r s',
    insert_topic "Stuff" blog_hi = (Returns (Some r), s') /\
    get_topic_by_id (Topic.topic_id r) s' = Some r /\
    (forall id, In id (topic_ids blog_hi) ->
                get_topic_by_id id s' = get_topic_by_id id blog_hi) /\
    (forall m, In m (map Topic.topic (topics blog_hi)) ->
               get_topic_by_name m s' = get_topic_by_name m blog_hi) /\
    get_all_authors s' = get_all_authors blog_hi /\
    get_all_entries s' = get_all_entries blog_hi.
Proof.
  split; [exact blog_hi_wf|].
  apply (insert_topic_frame "Stuff" blog_hi); exact blog_hi_wf.
Defined.

Lemma resolved_keeps_join (a tp : string) (s : db) :
  wf s -> entry_join (resolved a tp s) = entry_join s.
Proof.
  intros W; unfold resolved.
  rewrite insert_topic_keeps_join by now apply insert_author_wf.
  now apply insert_author_keeps_join.
Qed.

(** X10: in a store that satisfies its schema, [insert_entry] appends its
    record to what [get_all_entries] returned and leaves every earlier
    record as it was: [get_entry_by_id] on an id that was present returns
    what it returned before. *)
Theorem insert_entry_appends_record (t c a tp : string) (s : db) :
  wf s ->
  exists d s',
    insert_entry t c a tp s = (Returns (Some d), s') /\
    get_all_entries s' = get_all_entries s ++ [d] /\
    (forall id, In id (entry_ids s) ->
                get_entry_by_id id s' = get_entry_by_id id s).
Proof.
  intros W.
  destruct (insert_entry_spec t c a tp s W) as (ra & rt & H).
  cbv zeta in H.
  destruct H as (Hi & _ & _ & _ & _ & _ & Hra & Hrt & W').
  match type of W' with wf ?x => set (s' := x) in * end.
  match type of Hi with _ = (Returns (Some ?x), _) => set (d := x) in * end.
  assert (G : get_all_entries s' = get_all_entries s ++ [d]).
  { unfold get_all_entries, entry_join at 1, s'; simpl entries.
    rewrite flat_map_app; simpl flat_map; rewrite app_nil_r.
    f_equal.
    - destruct (resolved_spec a tp s)
        as (ra0 & rt0 & _ & _ & _ & _ & _ & _ & _ & _ & _ & EE).
      rewrite <- (resolved_keeps_join a tp s W).
      unfold entry_join; now rewrite EE.
    - apply (join_rows_unique s'); auto.
      + apply (author_pk s' W').
      + apply (topic_pk s' W'). }
  exists d, s'; split; [exact Hi|]; split; [exact G|].
  intros id Hid; unfold get_entry_by_id.
  fold (get_all_entries s'); rewrite G, filter_app; simpl.
  destruct (Z.eqb_spec (next_rowid (entry_ids s)) id) as [E|_].
  - exfalso; apply (next_rowid_fresh (entry_ids s)); now rewrite E.
  - now rewrite app_nil_r.
Qed.

Lemma insert_entry_appends_record_blog_hi :
  wf blog_hi /\
  exists d s',
    insert_entry "Hello" "something??" "Karen" "Stuff" blog_hi
    = (Returns (Some d), s') /\
    get_all_entries s' = get_all_entries blog_hi ++ [d] /\
    (forall id, In id (entry_ids blog_hi) ->
                get_entry_by_id id s' = get_entry_by_id id blog_hi).
Proof.
  split; [exact blog_hi_wf|].
  apply (insert_entry_appends_record "Hello" "something??" "Karen" "Stuff"
           blog_hi).
  exact blog_hi_wf.
Defined.

(** ** What a delete removes *)

Lemma filter_join_ids (s : db) (p : Z -> bool) (l : list Entry.row) :
  filter (fun d => p (EntryDict.entry_id d)) (flat_map (join_rows s) l)
  = flat_map (join_rows s) (filter (fun e => p (Entry.entry_id e)) l).
Proof.
  induction l as [|e l IH]; simpl; [reflexivity|].
  rewrite filter_app, IH.
  rewrite (filter_constant _ (p (Entry.entry_id e))).
  - now destruct (p (Entry.entry_id e)).
  - intros d Hd; apply join_rows_In in Hd.
    destruct Hd as (a & t & _ & _ & _ & _ & ->); reflexivity.
Qed.

(** X11: [delete_entry id] removes from [get_all_entries] the records
    whose entry id is [id] and nothing else; [get_entry_by_id] on any other
    id returns what it returned before.  This holds in every store. *)
Theorem delete_entry_removes_only_that_record (id : Z) (s : db) :
  get_all_entries (snd (delete_entry id s))
  = filter (fun d => negb (EntryDict.entry_id d =? id)) (get_all_entries s) /\
  (forall k, k <> id ->
             get_entry_by_id k (snd (delete_entry id s))
             = get_entry_by_id k s).
Proof.
  split.
  - unfold get_all_entries, entry_join; simpl.
    symmetry; apply (filter_join_ids s (fun i => negb (i =? id))).
  - intros k Hk; rewrite !get_entry_by_id_lookup; simpl entries.
    now rewrite (filter_other_after_delete Entry.entry_id).
Qed.

Lemma unreferenced_not_in {A} (fk : A -> Z) (l : list A) (id : Z) (x : A) :
  existsb (fun e => fk e =? id) l = false -> In x l -> fk x <> id.
Proof.
  intros H Hin E.
  assert (existsb (fun e => fk e =? id) l = true); [|congruence].
  apply existsb_exists; exists x; split; [exact Hin|now apply Z.eqb_eq].
Qed.

(** X12: when the id fits a signed 64-bit integer and no entry row
    references it, [delete_author id] returns, removes from
    [get_all_authors] the row with that id and nothing else, and leaves
    [get_all_topics] and [get_all_entries] as they were;
    [get_author_by_id id] then returns None and any other id is looked up
    as before.  This holds in every store. *)
Theorem delete_unreferenced_author (id : Z) (s : db) :
  in_int64 id = true ->
  author_referenced id s = false ->
  exists s',
    BlogDatabase.delete_author id s = (Returns tt, s') /\
    get_all_authors s'
    = filter (fun r => negb (Author.author_id r =? id)) (get_all_authors s) /\
    BlogDatabase.get_author_by_id id s' = (Returns None, s') /\
    (forall k, k <> id ->
               fst (BlogDatabase.get_author_by_id k s')
               = fst (BlogDatabase.get_author_by_id k s)) /\
    get_all_topics s' = get_all_topics s /\
    get_all_entries s' = get_all_entries s.
Proof.
  intros I R.
  unfold BlogDatabase.delete_author, BlogDatabase.get_author_by_id, bind_int.
  rewrite I, delete_author_eq, R, andb_false_r.
  eexists; split; [reflexivity|]; simpl.
  split; [reflexivity|]; split; [|split; [|split; [reflexivity|]]].
  - unfold query, get_author_by_id; simpl.
    rewrite (filter_key_absent Author.author_id); [reflexivity|].
    apply key_absent_after_delete.
  - intros k Hk; destruct (in_int64 k); [|reflexivity].
    unfold query, get_author_by_id; simpl.
    now rewrite (filter_other_after_delete Author.author_id).
  - unfold get_all_entries, entry_join; simpl entries.
    apply flat_map_agree; intros e He.
    rewrite !join_rows_lookup; simpl.
    rewrite (filter_other_after_delete Author.author_id); [reflexivity|].
    now apply (unreferenced_not_in Entry.author_id (entries s)).
Qed.

Lemma delete_unreferenced_author_sam :
  (in_int64 2 = true /\
   author_referenced 2 (snd (insert_author "Sam" blog_hi)) = false) /\
  exists s',
    BlogDatabase.delete_author 2 (snd (insert_author "Sam" blog_hi))
    = (Returns tt, s') /\
    get_all_authors s'
    = filter (fun r => negb (Author.author_id r =? 2))
        (get_all_authors (snd (insert_author "Sam" blog_hi))) /\
    BlogDatabase.get_author_by_id 2 s' = (Returns None, s') /\
    (forall k, k <> 2 ->
               fst (BlogDatabase.get_author_by_id k s')
               = fst (BlogDatabase.get_author_by_id k
                        (snd (insert_author "Sam" blog_hi)))) /\
    get_all_topics s'
    = get_all_topics (snd (insert_author "Sam" blog_hi)) /\
    get_all_entries s'
    = get_all_entries (snd (insert_author "Sam" blog_hi)).
Proof.
  split; [split; reflexivity|].
  apply (delete_unreferenced_author 2 (snd (insert_author "Sam" blog_hi)));
    reflexivity.
Defined.

(** X13: when the id fits a signed 64-bit integer and no entry row
    references it, [delete_topic id] returns, removes from
    [get_all_topics] the row with that id and nothing else, and leaves
    [get_all_authors] and [get_all_entries] as they were;
    [get_topic_by_id id] then returns None and any other id is looked up
    as before.  This holds in every store. *)
Theorem delete_unreferenced_topic (id : Z) (s : db) :
  in_int64 id = true ->
  topic_referenced id s = false ->
  exists s',
    BlogDatabase.delete_topic id s = (Returns tt, s') /\
    get_all_topics s'
    = filter (fun r => negb (Topic.topic_id r =? id)) (get_all_topics s) /\
    BlogDatabase.get_topic_by_id id s' = (Returns None, s') /\
    (forall k, k <> id ->
               fst (BlogDatabase.get_topic_by_id k s')
               = fst (BlogDatabase.get_topic_by_id k s)) /\
    get_all_authors s' = get_all_authors s /\
    get_all_entries s' = get_all_entries s.
Proof.
  intros I R.
  unfold BlogDatabase.delete_topic, BlogDatabase.get_topic_by_id, bind_int.
  rewrite I, delete_topic_eq, R, andb_false_r.
  eexists; split; [reflexivity|]; simpl.
  split; [reflexivity|]; split; [|split; [|split; [reflexivity|]]].
  - unfold query, get_topic_by_id; simpl.
    rewrite (filter_key_absent Topic.topic_id); [reflexivity|].
    apply key_absent_after_delete.
  - intros k Hk; destruct (in_int64 k); [|reflexivity].
    unfold query, get_topic_by_id; simpl.
    now rewrite (filter_other_after_delete Topic.topic_id).
  - unfold get_all_entries, entry_join; simpl entries.
    apply flat_map_agree; intros e He.
    rewrite !join_rows_lookup; simpl.
    apply flat_map_ext; intros a.
    rewrite (filter_other_after_delete Topic.topic_id); [reflexivity|].
    now apply (unreferenced_not_in Entry.topic_id (entries s)).
Qed.

Lemma delete_unreferenced_topic_stuff :
  (in_int64 2 = true /\
   topic_referenced 2 (snd (insert_topic "Stuff" blog_hi)) = false) /\
  exists s',
    BlogDatabase.delete_topic 2 (snd (insert_topic "Stuff" blog_hi))
    = (Returns tt, s') /\
    get_all_topics s'
    = filter (fun r => negb (Topic.topic_id r =? 2))
        (get_all_topics (snd (insert_topic "Stuff" blog_hi))) /\
    BlogDatabase.get_topic_by_id 2 s' = (Returns None, s') /\
    (forall k, k <> 2 ->
               fst (BlogDatabase.get_topic_by_id k s')
               = fst (BlogDatabase.get_topic_by_id k
                        (snd (insert_topic "Stuff" blog_hi)))) /\
    get_all_authors s'
    = get_all_authors (snd (insert_topic "Stuff" blog_hi)) /\
    get_all_entries s'
    = get_all_entries (snd (insert_topic "Stuff" blog_hi)).
Proof.
  split; [split; reflexivity|].
  apply (delete_unreferenced_topic 2 (snd (insert_topic "Stuff" blog_hi)));
    reflexivity.
Defined.

(** ** insert_entry with names already known *)

Lemma known_author_kept (a : string) (r : Author.row) (s : db) :
  get_author_by_name a s = Some r -> snd (insert_author a s) = s.
Proof.
  intros H; unfold insert_author, bind, insert_or_ignore_author, query.
  destruct (existsb _ (authors s)) eqn:E; [reflexivity|].
  unfold get_author_by_name in H.
  rewrite (fetch_absent _ _ E) in H; discriminate.
Qed.

Lemma known_topic_kept (tp : string) (r : Topic.row) (s : db) :
  get_topic_by_name tp s = Some r -> snd (insert_topic tp s) = s.
Proof.
  intros H; unfold insert_topic, bind, insert_or_ignore_topic, query.
  destruct (existsb _ (topics s)) eqn:E; [reflexivity|].
  unfold get_topic_by_name in H.
  rewrite (fetch_absent _ _ E) in H; discriminate.
Qed.

(** X14: in a store that satisfies its schema, when the author name and
    the topic name are already there, [insert_entry] creates no author and
    no topic: the new entry row carries the ids of the existing rows and
    only the entry table grows. *)
Theorem insert_entry_reuses_known_names
        (t c a tp : string) (ra : Author.row) (rt : Topic.row) (s : db) :
  wf s ->
  get_author_by_name a s = Some ra ->
  get_topic_by_name tp s = Some rt ->
  let e := Entry.mk (next_rowid (entry_ids s)) t c
             (Author.author_id ra) (Topic.topic_id rt) in
  insert_entry t c a tp s
  = (Returns (Some (joined e ra rt)), set_entries (entries s ++ [e]) s).
Proof.
  intros W Ha Ht e.
  destruct (insert_entry_spec t c a tp s W) as (ra' & rt' & H).
  cbv zeta in H.
  destruct H as (Hi & _ & Hga & Hgt & _).
  assert (R : resolved a tp s = s).
  { unfold resolved.
    rewrite (known_author_kept a ra s Ha).
    exact (known_topic_kept tp rt s Ht). }
  rewrite R in Hi, Hga, Hgt.
  unfold get_author_by_name in Hga, Ha; simpl in Hga.
  unfold get_topic_by_name in Hgt, Ht; simpl in Hgt.
  assert (ra' = ra) by congruence.
  assert (rt' = rt) by congruence.
  subst ra' rt'; exact Hi.
Qed.

Lemma insert_entry_reuses_known_names_blog_hi :
  (wf blog_hi /\ get_author_by_name "Karen" blog_hi = Some karen /\
   get_topic_by_name "Thoughts" blog_hi = Some thoughts) /\
  insert_entry "Hi" ":(" "Karen" "Thoughts" blog_hi
  = (Returns
       (Some (joined (Entry.mk (next_rowid (entry_ids blog_hi)) "Hi" ":("
                        (Author.author_id karen) (Topic.topic_id thoughts))
                karen thoughts)),
     set_entries
       (entries blog_hi
        ++ [Entry.mk (next_rowid (entry_ids blog_hi)) "Hi" ":("
              (Author.author_id karen) (Topic.topic_id thoughts)])
       blog_hi).
Proof.
  split; [split; [exact blog_hi_wf|split; reflexivity]|].
  apply (insert_entry_reuses_known_names "Hi" ":(" "Karen" "Thoughts"
           karen thoughts blog_hi);
    [exact blog_hi_wf|reflexivity|reflexivity].
Defined.

(** * The JSON views of blog_api.py *)

Lemma form_get_has (f : form) (key v : string) :
  form_get f key = Some v -> form_has f key = true.
Proof.
  unfold form_has; induction f as [|[k w] f IH]; simpl; [discriminate|].
  destruct (String.eqb k key); [reflexivity|exact IH].
Qed.

Lemma item_found {B} (f : form) (key v : string) (k : string -> view B) :
  form_get f key = Some v -> item f key k = k v.
Proof. unfold item; now intros ->. Qed.

Lemma call_returns {A B} (m : M A) (k : A -> view B) (s s' : db) (a : A) :
  m s = (Returns a, s') -> call m k s = k a s'.
Proof. unfold call; now intros ->. Qed.

Lemma present_found {A} (key : A -> Z) (l : list A) (x : A) :
  In x l -> row_to_dict (filter (fun r => key r =? key x) l) <> None.
Proof.
  intros Hin H; apply fetch_none_iff in H.
  assert (existsb (fun r => key r =? key x) l = true); [|congruence].
  apply existsb_exists; exists x; split; [exact Hin|apply Z.eqb_refl].
Qed.

(** X15: DELETE /entries/<id> on an id that [get_entry_by_id] finds
    answers with the success message; after it GET /entries/<id> and a
    second DELETE /entries/<id> both raise RequestError 404, and the
    authors and topics are untouched.  This holds in every store. *)
Theorem entry_deleted_then_not_found (id : Z) (s : db) :
  get_entry_by_id id s <> None ->
  exists s',
    EntriesView.delete id s
    = (Responds (JMessage "entry deleted successfully"), s') /\
    EntriesView.get (Some id) s'
    = (Fails (RequestError 404 "entry not found"), s') /\
    EntriesView.delete id s'
    = (Fails (RequestError 404 "entry not found"), s') /\
    get_all_authors s' = get_all_authors s /\
    get_all_topics s' = get_all_topics s.
Proof.
  intros H; exists (snd (delete_entry id s)).
  assert (G : get_entry_by_id id (snd (delete_entry id s)) = None).
  { rewrite get_entry_by_id_lookup; simpl.
    rewrite (filter_key_absent Entry.entry_id); [reflexivity|].
    apply key_absent_after_delete. }
  unfold EntriesView.delete, EntriesView.get; rewrite G.
  destruct (get_entry_by_id id s); [|contradiction].
  repeat split.
Qed.

Lemma entry_deleted_then_not_found_blog_hi :
  get_entry_by_id 1 blog_hi <> None /\
  exists s',
    EntriesView.delete 1 blog_hi
    = (Responds (JMessage "entry deleted successfully"), s') /\
    EntriesView.get (Some 1) s'
    = (Fails (RequestError 404 "entry not found"), s') /\
    EntriesView.delete 1 s'
    = (Fails (RequestError 404 "entry not found"), s') /\
    get_all_authors s' = get_all_authors blog_hi /\
    get_all_topics s' = get_all_topics blog_hi.
Proof.
  assert (H : get_entry_by_id 1 blog_hi <> None) by discriminate.
  split; [exact H|].
  apply (entry_deleted_then_not_found 1 blog_hi); exact H.
Defined.

(** X16: in a store that satisfies its schema, DELETE /authors/<id> for an
    author that an entry row references, and DELETE /topics/<id> for a
    topic that an entry row references, end in the store's IntegrityError,
    which no view catches: neither the success message nor RequestError
    404.  The store is unchanged, and GET on the same id still answers with
    that author row, resp. that topic row. *)
Theorem delete_view_of_referenced_parent
        (s : db) (e : Entry.row) (a : Author.row) (t : Topic.row) :
  wf s ->
  In e (entries s) -> In a (authors s) -> In t (topics s) ->
  Entry.author_id e = Author.author_id a ->
  Entry.topic_id e = Topic.topic_id t ->
  AuthorsView.delete (Author.author_id a) s
  = (Fails (Unhandled IntegrityError), s) /\
  TopicsView.delete (Topic.topic_id t) s
  = (Fails (Unhandled IntegrityError), s) /\
  AuthorsView.get (Some (Author.author_id a)) s = (Responds (JAuthor a), s) /\
  TopicsView.get (Some (Topic.topic_id t)) s = (Responds (JTopic t), s).
Proof.
  intros W He Ha Ht Ea Et.
  assert (Da : delete_author (Author.author_id a) s
               = (Raises IntegrityError, s)).
  { rewrite delete_author_eq.
    replace (author_present _ s) with true.
    2:{ symmetry; apply key_present_exists; now apply in_map. }
    replace (author_referenced _ s) with true; [reflexivity|].
    symmetry; apply key_present_exists; rewrite <- Ea; now apply in_map. }
  assert (Dt : delete_topic (Topic.topic_id t) s
               = (Raises IntegrityError, s)).
  { rewrite delete_topic_eq.
    replace (topic_present _ s) with true.
    2:{ symmetry; apply key_present_exists; now apply in_map. }
    replace (topic_referenced _ s) with true; [reflexivity|].
    symmetry; apply key_present_exists; rewrite <- Et; now apply in_map. }
  assert (Ga : get_author_by_id (Author.author_id a) s = Some a).
  { unfold get_author_by_id.
    rewrite (filter_key_unique Author.author_id);
      [reflexivity|apply (author_pk s W)|exact Ha]. }
  assert (Gt : get_topic_by_id (Topic.topic_id t) s = Some t).
  { unfold get_topic_by_id.
    rewrite (filter_key_unique Topic.topic_id);
      [reflexivity|apply (topic_pk s W)|exact Ht]. }
  unfold AuthorsView.delete, AuthorsView.get, TopicsView.delete,
    TopicsView.get, call.
  rewrite Ga, Gt, Da, Dt; repeat split.
Qed.

Lemma delete_view_of_referenced_parent_blog_hi :
  (wf blog_hi /\
   In hi_row (entries blog_hi) /\ In karen (authors blog_hi) /\
   In thoughts (topics blog_hi) /\
   Entry.author_id hi_row = Author.author_id karen /\
   Entry.topic_id hi_row = Topic.topic_id thoughts) /\
  AuthorsView.delete 1 blog_hi = (Fails (Unhandled IntegrityError), blog_hi) /\
  TopicsView.delete 1 blog_hi = (Fails (Unhandled IntegrityError), blog_hi) /\
  AuthorsView.get (Some 1) blog_hi = (Responds (JAuthor karen), blog_hi) /\
  TopicsView.get (Some 1) blog_hi = (Responds (JTopic thoughts), blog_hi).
Proof.
  split; [split; [exact blog_hi_wf|simpl; auto 10]|].
  apply (delete_view_of_referenced_parent blog_hi hi_row karen thoughts);
    [exact blog_hi_wf|simpl; auto..].
Defined.





(** [insert_entry] appends its record to the join. *)
Lemma insert_entry_appends_all (t c a tp : string) (s : db) :
  wf s ->
  exists d,
    insert_entry t c a tp s = (Returns (Some d), snd (insert_entry t c a tp s))
    /\ get_all_entries (snd (insert_entry t c a tp s))
       = get_all_entries s ++ [d].
Proof.
  intros W.
  destruct (insert_entry_spec t c a tp s W) as (ra & rt & H).
  cbv zeta in H.
  destruct H as (Hi & _ & _ & _ & _ & _ & Hra & Hrt & W').
  rewrite Hi; simpl snd.
  eexists; split; [reflexivity|].
  match type of W' with wf ?x => set (s' := x) in * end.
  unfold get_all_entries, entry_join at 1, s'; simpl entries.
  rewrite flat_map_app; simpl flat_map; rewrite app_nil_r.
  f_equal.
  - destruct (resolved_spec a tp s)
      as (ra0 & rt0 & _ & _ & _ & _ & _ & _ & _ & _ & _ & EE).
    rewrite <- (resolved_keeps_join a tp s W).
    unfold entry_join; now rewrite EE.
  - apply (join_rows_unique s'); auto.
    + apply (author_pk s' W').
    + apply (topic_pk s' W').
Qed.

Lemma first_missing_found (f : form) (before after : list string)
      (p : string) :
  forallb (form_has f) before = true -> form_has f p = false ->
  first_missing (before ++ p :: after) f = Some p.
Proof.
  induction before as [|q before IH]; simpl; intros B P.
  - now rewrite P.
  - apply andb_true_iff in B; destruct B as [-> B]; auto.
Qed.

(** X18: POST /entries with a form that lacks one of title, content,
    author, topic raises RequestError 422 whose message names the first of
    the four, in this order, that is missing; nothing is inserted. *)
Theorem post_entry_names_first_missing
        (f : form) (before after : list string) (p : string) (s : db) :
  ["title"; "content"; "author"; "topic"]%string = before ++ p :: after ->
  forallb (form_has f) before = true ->
  form_has f p = false ->
  EntriesView.post f s
  = (Fails (RequestError 422
              (String.append "parameter " (String.append p " required"))),
     s).
Proof.
  intros L B P; unfold EntriesView.post.
  rewrite L, (first_missing_found f before after p B P); reflexivity.
Qed.

Lemma post_entry_names_first_missing_author :
  (["title"; "content"; "author"; "topic"]%string
   = ["title"; "content"]%string ++ "author"%string :: ["topic"]%string /\
   forallb (form_has [("title", "Hi"); ("content", ":)"); ("topic", "T")]%string)
     ["title"; "content"]%string = true /\
   form_has [("title", "Hi"); ("content", ":)"); ("topic", "T")]%string
     "author" = false) /\
  EntriesView.post [("title", "Hi"); ("content", ":)"); ("topic", "T")]%string
    blog_hi
  = (Fails (RequestError 422 "parameter author required"), blog_hi).
Proof.
  split; [repeat split|].
  apply (post_entry_names_first_missing
           [("title", "Hi"); ("content", ":)"); ("topic", "T")]%string
           ["title"; "content"]%string ["topic"]%string "author" blog_hi);
    reflexivity.
Defined.

Lemma first_missing_none (f : form) (l : list string) :
  forallb (form_has f) l = true -> first_missing l f = None.
Proof.
  induction l as [|q l IH]; simpl; intros B; [reflexivity|].
  apply andb_true_iff in B; destruct B as [-> B]; auto.
Qed.

(** X19: in a store that satisfies its schema, POST /entries with the four
    fields answers with the record of the new entry, which carries the
    posted values; GET /entries/<its id> then answers with the same record
    and GET /entries lists it after the records that were there. *)
Theorem post_entry_then_get (f : form) (t c a tp : string) (s : db) :
  wf s ->
  form_get f "title" = Some t -> form_get f "content" = Some c ->
  form_get f "author" = Some a -> form_get f "topic" = Some tp ->
  exists d s',
    EntriesView.post f s = (Responds (JEntry d), s') /\
    EntriesView.get (Some (EntryDict.entry_id d)) s'
    = (Responds (JEntry d), s') /\
    EntriesView.get None s'
    = (Responds (JEntries (get_all_entries s ++ [d])), s') /\
    EntryDict.title d = t /\ EntryDict.content d = c /\
    EntryDict.author d = a /\ EntryDict.topic d = tp.
Proof.
  intros W Ft Fc Fa Ftp.
  destruct (insert_entry_spec t c a tp s W) as (ra & rt & H).
  cbv zeta in H.
  destruct H as (Hi & Hg & _ & _ & Hna & Hnt & _ & _ & _).
  destruct (insert_entry_appends_all t c a tp s W) as [d' [Hi' Hall]].
  rewrite Hi in Hi', Hall; simpl snd in Hi', Hall.
  injection Hi' as <-.
  match type of Hi with _ = (Returns (Some ?x), ?y) =>
    set (d := x) in *; set (s' := y) in * end.
  exists d, s'; split; [|split; [|split]].
  - unfold EntriesView.post.
    rewrite first_missing_none
      by (simpl; now rewrite (form_get_has f _ _ Ft), (form_get_has f _ _ Fc),
            (form_get_has f _ _ Fa), (form_get_has f _ _ Ftp)).
    rewrite (item_found f _ _ _ Ft), (item_found f _ _ _ Fc),
      (item_found f _ _ _ Fa), (item_found f _ _ _ Ftp).
    rewrite (call_returns _ _ _ _ _ Hi); reflexivity.
  - unfold EntriesView.get.
    replace (get_entry_by_id (EntryDict.entry_id d) s') with (Some d)
      by (symmetry; exact Hg).
    reflexivity.
  - unfold EntriesView.get; rewrite Hall; reflexivity.
  - simpl; auto.
Qed.

Lemma post_entry_then_get_blog_hi :
  (wf blog_hi /\
   form_get hello_form "title" = Some "Hello"%string /\
   form_get hello_form "content" = Some "Hello how are you"%string /\
   form_get hello_form "author" = Some "Sam"%string /\
   form_get hello_form "topic" = Some "Stuff"%string) /\
  exists d s',
    EntriesView.post hello_form blog_hi = (Responds (JEntry d), s') /\
    EntriesView.get (Some (EntryDict.entry_id d)) s'
    = (Responds (JEntry d), s') /\
    EntriesView.get None s'
    = (Responds (JEntries (get_all_entries blog_hi ++ [d])), s') /\
    EntryDict.title d = "Hello"%string /\
    EntryDict.content d = "Hello how are you"%string /\
    EntryDict.author d = "Sam"%string /\ EntryDict.topic d = "Stuff"%string.
Proof.
  split; [split; [exact blog_hi_wf|repeat split]|].
  apply (post_entry_then_get hello_form "Hello" "Hello how are you" "Sam"
           "Stuff" blog_hi);
    [exact blog_hi_wf|reflexivity..].
Defined.

(** X20: in a store that satisfies its schema, POST /authors with a name
    answers with the author row of that name; posting the same form again
    answers with the same row and changes nothing, and GET /authors/<its
    id> answers with that row. *)
Theorem post_author_twice_then_get (f : form) (n : string) (s : db) :
  wf s -> form_get f "name" = Some n ->
  exists r s',
    AuthorsView.post f s = (Responds (JAuthor r), s') /\
    AuthorsView.post f s' = (Responds (JAuthor r), s') /\
    AuthorsView.get (Some (Author.author_id r)) s'
    = (Responds (JAuthor r), s') /\
    Author.name r = n.
Proof.
  intros W F.
  pose proof (insert_author_wf n s W) as W'.
  destruct (insert_author_spec n s) as (r & s' & E & Hg & Hn & Hin & _).
  rewrite E in W'; simpl in W'.
  assert (E' : insert_author n s' = (Returns (Some r), s')).
  { pose proof (known_author_kept n r s' Hg) as K.
    destruct (insert_author_spec n s') as (r' & s2 & E2 & Hg2 & _).
    rewrite E2 in K; simpl in K; subst s2.
    rewrite E2; congruence. }
  exists r, s'; unfold AuthorsView.post, AuthorsView.get.
  rewrite (form_get_has f _ _ F), (item_found f _ _ _ F).
  rewrite (call_returns _ _ _ _ _ E), (call_returns _ _ _ _ _ E').
  unfold get_author_by_id.
  rewrite (filter_key_unique Author.author_id);
    [auto|apply (author_pk s' W')|exact Hin].
Qed.

Lemma post_author_twice_then_get_blog_hi :
  (wf blog_hi /\ form_get [("name", "Sam")]%string "name" = Some "Sam"%string)
  /\
  exists r s',
    AuthorsView.post [("name", "Sam")]%string blog_hi
    = (Responds (JAuthor r), s') /\
    AuthorsView.post [("name", "Sam")]%string s'
    = (Responds (JAuthor r), s') /\
    AuthorsView.get (Some (Author.author_id r)) s'
    = (Responds (JAuthor r), s') /\
    Author.name r = "Sam"%string.
Proof.
  split; [split; [exact blog_hi_wf|reflexivity]|].
  apply (post_author_twice_then_get [("name", "Sam")]%string "Sam" blog_hi);
    [exact blog_hi_wf|reflexivity].
Defined.

(** X21: the same for POST /topics and GET /topics/<id>. *)
Theorem post_topic_twice_then_get (f : form) (n : string) (s : db) :
  wf s -> form_get f "topic" = Some n ->
  exists r s',
    TopicsView.post f s = (Responds (JTopic r), s') /\
    TopicsView.post f s' = (Responds (JTopic r), s') /\
    TopicsView.get (Some (Topic.topic_id r)) s'
    = (Responds (JTopic r), s') /\
    Topic.topic r = n.
Proof.
  intros W F.
  pose proof (insert_topic_wf n s W) as W'.
  destruct (insert_topic_spec n s) as (r & s' & E & Hg & Hn & Hin & _).
  rewrite E in W'; simpl in W'.
  assert (E' : insert_topic n s' = (Returns (Some r), s')).
  { pose proof (known_topic_kept n r s' Hg) as K.
    destruct (insert_topic_spec n s') as (r' & s2 & E2 & Hg2 & _).
    rewrite E2 in K; simpl in K; subst s2.
    rewrite E2; congruence. }
  exists r, s'; unfold TopicsView.post, TopicsView.get.
  rewrite (form_get_has f _ _ F), (item_found f _ _ _ F).
  rewrite (call_returns _ _ _ _ _ E), (call_returns _ _ _ _ _ E').
  unfold get_topic_by_id.
  rewrite (filter_key_unique Topic.topic_id);
    [auto|apply (topic_pk s' W')|exact Hin].
Qed.

Lemma post_topic_twice_then_get_blog_hi :
  (wf blog_hi /\
   form_get [("topic", "Stuff")]%string "topic" = Some "Stuff"%string) /\
  exists r s',
    TopicsView.post [("topic", "Stuff")]%string blog_hi
    = (Responds (JTopic r), s') /\
    TopicsView.post [("topic", "Stuff")]%string s'
    = (Responds (JTopic r), s') /\
    TopicsView.get (Some (Topic.topic_id r)) s'
    = (Responds (JTopic r), s') /\
    Topic.topic r = "Stuff"%string.
Proof.
  split; [split; [exact blog_hi_wf|reflexivity]|].
  apply (post_topic_twice_then_get [("topic", "Stuff")]%string "Stuff"
           blog_hi);
    [exact blog_hi_wf|reflexivity].
Defined.

(** * The pages of browse_blog.py *)

Lemma check_parameters_pass (l : list string) (acc : option bool)
      (n : option string) :
  Forall (fun p => p <> ""%string /\ (len p <= 100)%nat) l ->
  Browse.check_parameters l acc n
  = (match l with [] => acc | _ => Some true end, n).
Proof.
  revert acc; induction l as [|p l IH]; intros acc F; simpl; [reflexivity|].
  apply Forall_cons_iff in F; destruct F as [[Hp Hl] F].
  destruct (String.eqb_spec p "") as [E|_]; [contradiction|].
  replace (Nat.ltb Browse.max_length (len p)) with false
    by (symmetry; apply Nat.ltb_ge; exact Hl).
  rewrite IH by exact F; now destruct l.
Qed.

Lemma check_parameters_stop (before after : list string) (p : string)
      (acc : option bool) (n : option string) :
  Forall (fun q => q <> ""%string /\ (len q <= 100)%nat) before ->
  p = ""%string \/ (100 < len p)%nat ->
  Browse.check_parameters (before ++ p :: after) acc n
  = (Some false,
     Some (if String.eqb p ""
           then "There's a missing parameter"%string
           else "All inputs must be under 100 characters"%string)).
Proof.
  revert acc; induction before as [|q before IH]; intros acc F B; simpl.
  - destruct (String.eqb_spec p "") as [E|E]; [reflexivity|].
    destruct B as [B|B]; [contradiction|].
    replace (Nat.ltb Browse.max_length (len p)) with true
      by (symmetry; apply Nat.ltb_lt; exact B).
    reflexivity.
  - apply Forall_cons_iff in F; destruct F as [[Hq Hl] F].
    destruct (String.eqb_spec q "") as [E|_]; [contradiction|].
    replace (Nat.ltb Browse.max_length (len q)) with false
      by (symmetry; apply Nat.ltb_ge; exact Hl).
    now apply IH.
Qed.

(** The length test of [add_entry] counts code points, not bytes. *)
Example forty_wide_lengths :
  String.length forty_wide = 120%nat /\ len forty_wide = 40%nat.
Proof. split; vm_compute; reflexivity. Qed.

Example add_entry_wide_title :
  fst (Browse.add_entry
         [("title"%string, forty_wide); ("content", ":)"); ("author", "Karen");
          ("topic", "Thoughts")]%string blog_hi)
  = Responds (Browse.mkpage true (Some true)
                (Some "Entry added successfully!"%string)).
Proof. vm_compute; reflexivity. Qed.

(** X22: in a store that satisfies its schema, [add_entry] with a form
    whose four fields are non-empty and at most 100 characters (code points) long,
    100 included, reports success and inserts the entry: the entries page then
    lists one more record, carrying the four posted values. *)
Theorem add_entry_accepts (f : form) (t c a tp : string) (s : db) :
  wf s ->
  form_get f "title" = Some t -> form_get f "content" = Some c ->
  form_get f "author" = Some a -> form_get f "topic" = Some tp ->
  Forall (fun p => p <> ""%string /\ (len p <= 100)%nat)
    [t; c; a; tp] ->
  exists d s',
    Browse.add_entry f s
    = (Responds (Browse.mkpage true (Some true)
                   (Some "Entry added successfully!"%string)), s') /\
    Browse.all_entries s' = (Responds (get_all_entries s ++ [d]), s') /\
    EntryDict.title d = t /\ EntryDict.content d = c /\
    EntryDict.author d = a /\ EntryDict.topic d = tp.
Proof.
  intros W Ft Fc Fa Ftp Ok.
  destruct (insert_entry_spec t c a tp s W) as (ra & rt & H).
  cbv zeta in H.
  destruct H as (Hi & _ & _ & _ & Hna & Hnt & _ & _ & _).
  destruct (insert_entry_appends_all t c a tp s W) as [d' [Hi' Hall]].
  rewrite Hi in Hi', Hall; simpl snd in Hi', Hall.
  injection Hi' as <-.
  match type of Hi with _ = (Returns (Some ?x), ?y) =>
    set (d := x) in *; set (s' := y) in * end.
  exists d, s'; split; [|split].
  - unfold Browse.add_entry.
    rewrite (form_get_has f _ _ Ft), (form_get_has f _ _ Fc),
      (form_get_has f _ _ Fa), (form_get_has f _ _ Ftp); cbn [andb].
    rewrite (item_found f _ _ _ Ft), (item_found f _ _ _ Fc),
      (item_found f _ _ _ Fa), (item_found f _ _ _ Ftp).
    rewrite (check_parameters_pass _ _ _ Ok); cbv beta iota.
    rewrite (call_returns _ _ _ _ _ Hi); reflexivity.
  - unfold Browse.all_entries; rewrite Hall; reflexivity.
  - simpl; auto.
Qed.

Lemma add_entry_accepts_blog_hi :
  (wf blog_hi /\
   form_get hello_form "title" = Some "Hello"%string /\
   form_get hello_form "content" = Some "Hello how are you"%string /\
   form_get hello_form "author" = Some "Sam"%string /\
   form_get hello_form "topic" = Some "Stuff"%string /\
   Forall (fun p => p <> ""%string /\ (len p <= 100)%nat)
     ["Hello"; "Hello how are you"; "Sam"; "Stuff"]%string) /\
  exists d s',
    Browse.add_entry hello_form blog_hi
    = (Responds (Browse.mkpage true (Some true)
                   (Some "Entry added successfully!"%string)), s') /\
    Browse.all_entries s'
    = (Responds (get_all_entries blog_hi ++ [d]), s') /\
    EntryDict.title d = "Hello"%string /\
    EntryDict.content d = "Hello how are you"%string /\
    EntryDict.author d = "Sam"%string /\ EntryDict.topic d = "Stuff"%string.
Proof.
  assert (Ok : Forall
                 (fun p => p <> ""%string /\ (len p <= 100)%nat)
                 ["Hello"; "Hello how are you"; "Sam"; "Stuff"]%string).
  { repeat constructor; try discriminate; simpl; lia. }
  split; [split; [exact blog_hi_wf|repeat split; exact Ok]|].
  apply (add_entry_accepts hello_form "Hello" "Hello how are you" "Sam"
           "Stuff" blog_hi);
    [exact blog_hi_wf|reflexivity|reflexivity|reflexivity|reflexivity|
     exact Ok].
Defined.

(** X23: [add_entry] with the four fields present, one of which is empty
    or longer than 100 characters, inserts nothing and reports failure;
    the notice is decided by the first such field in the order title,
    content, author, topic: the missing-parameter text when it is empty,
    the too-long text otherwise.  This holds in every store. *)
Theorem add_entry_rejects
        (f : form) (t c a tp p : string) (before after : list string)
        (s : db) :
  form_get f "title" = Some t -> form_get f "content" = Some c ->
  form_get f "author" = Some a -> form_get f "topic" = Some tp ->
  [t; c; a; tp] = before ++ p :: after ->
  Forall (fun q => q <> ""%string /\ (len q <= 100)%nat) before ->
  p = ""%string \/ (100 < len p)%nat ->
  Browse.add_entry f s
  = (Responds
       (Browse.mkpage true (Some false)
          (Some (if String.eqb p ""
                 then "There's a missing parameter"%string
                 else "All inputs must be under 100 characters"%string))),
     s).
Proof.
  intros Ft Fc Fa Ftp L Ok Bad.
  unfold Browse.add_entry.
  rewrite (form_get_has f _ _ Ft), (form_get_has f _ _ Fc),
    (form_get_has f _ _ Fa), (form_get_has f _ _ Ftp); cbn [andb].
  rewrite (item_found f _ _ _ Ft), (item_found f _ _ _ Fc),
    (item_found f _ _ _ Fa), (item_found f _ _ _ Ftp).
  rewrite L, (check_parameters_stop before after p _ _ Ok Bad).
  reflexivity.
Qed.

Lemma add_entry_rejects_empty_content :
  (form_get [("title", "Hi"); ("content", ""); ("author", "Karen");
             ("topic", "Thoughts")]%string "title" = Some "Hi"%string /\
   form_get [("title", "Hi"); ("content", ""); ("author", "Karen");
             ("topic", "Thoughts")]%string "content" = Some ""%string /\
   form_get [("title", "Hi"); ("content", ""); ("author", "Karen");
             ("topic", "Thoughts")]%string "author" = Some "Karen"%string /\
   form_get [("title", "Hi"); ("content", ""); ("author", "Karen");
             ("topic", "Thoughts")]%string "topic" = Some "Thoughts"%string /\
   ["Hi"; ""; "Karen"; "Thoughts"]%string
   = ["Hi"%string] ++ ""%string :: ["Karen"; "Thoughts"]%string /\
   Forall (fun q => q <> ""%string /\ (len q <= 100)%nat)
     ["Hi"%string] /\
   (""%string = ""%string \/ (100 < len "")%nat)) /\
  Browse.add_entry
    [("title", "Hi"); ("content", ""); ("author", "Karen");
     ("topic", "Thoughts")]%string blog_hi
  = (Responds
       (Browse.mkpage true (Some false)
          (Some "There's a missing parameter"%string)),
     blog_hi).
Proof.
  assert (Ok : Forall
                 (fun q => q <> ""%string /\ (len q <= 100)%nat)
                 ["Hi"%string]).
  { repeat constructor; try discriminate; simpl; lia. }
  split; [repeat split; auto|].
  apply (add_entry_rejects
           [("title", "Hi"); ("content", ""); ("author", "Karen");
            ("topic", "Thoughts")]%string
           "Hi" "" "Karen" "Thoughts" "" ["Hi"%string]
           ["Karen"; "Thoughts"]%string blog_hi);
    [reflexivity|reflexivity|reflexivity|reflexivity|reflexivity|exact Ok|
     left; reflexivity].
Defined.

(** X24: the entry page for an id no entry row carries does not answer
    with a not-found page: [get_entry_by_id] returns None and subscripting
    it raises TypeError, which the view does not catch.  This holds in
    every store and for every reading of the id text as a number. *)
Theorem entry_page_of_unknown_id
        (numeric : string -> option Z) (entry_id : string) (s : db) :
  (forall k, numeric entry_id = Some k -> ~ In k (entry_ids s)) ->
  Browse.entry numeric entry_id s = (Fails (Unhandled TypeError), s).
Proof.
  intros H; unfold Browse.entry; cbv zeta.
  destruct (numeric entry_id) as [k|]; [|reflexivity].
  rewrite get_entry_by_id_lookup.
  rewrite (filter_key_absent Entry.entry_id) by (now apply H).
  reflexivity.
Qed.

Lemma entry_page_of_unknown_id_blog_hi :
  (forall k, (fun x => if String.eqb x "2" then Some 2 else None)
               "2"%string = Some k ->
             ~ In k (entry_ids blog_hi)) /\
  Browse.entry (fun x => if String.eqb x "2" then Some 2 else None)
    "2" blog_hi
  = (Fails (Unhandled TypeError), blog_hi).
Proof.
  assert (H : forall k,
             (fun x => if String.eqb x "2" then Some 2 else None)
               "2"%string = Some k ->
             ~ In k (entry_ids blog_hi)).
  { simpl; intros k E [H|[]]; congruence. }
  split; [exact H|].
  apply (entry_page_of_unknown_id
           (fun x => if String.eqb x "2" then Some 2 else None)
           "2" blog_hi); exact H.
Defined.

(** X25: in a store that satisfies its schema, after [insert_entry t c a
    tp] the entry page for the text that reads as the new entry id shows
    exactly title t, content c, author a and topic tp. *)
Theorem entry_page_after_insert
        (numeric : string -> option Z) (entry_id t c a tp : string)
        (s : db) :
  wf s ->
  numeric entry_id = Some (next_rowid (entry_ids s)) ->
  Browse.entry numeric entry_id (snd (insert_entry t c a tp s))
  = (Responds (Browse.mkentry t c a tp), snd (insert_entry t c a tp s)).
Proof.
  intros W N.
  destruct (insert_entry_spec t c a tp s W) as (ra & rt & H).
  cbv zeta in H.
  destruct H as (Hi & Hg & _ & _ & Hna & Hnt & _ & _ & _).
  rewrite Hi; simpl snd.
  unfold Browse.entry; cbv zeta; rewrite N.
  simpl Entry.entry_id in Hg; rewrite Hg.
  unfold respond; simpl; now rewrite Hna, Hnt.
Qed.

Lemma entry_page_after_insert_blog_hi :
  (wf blog_hi /\
   (fun x => if String.eqb x "2" then Some 2 else None) "2"%string
   = Some (next_rowid (entry_ids blog_hi))) /\
  Browse.entry (fun x => if String.eqb x "2" then Some 2 else None) "2"
    (snd (insert_entry "Hello" "Hello how are you" "Sam" "Stuff" blog_hi))
  = (Responds (Browse.mkentry "Hello" "Hello how are you" "Sam" "Stuff"),
     snd (insert_entry "Hello" "Hello how are you" "Sam" "Stuff" blog_hi)).
Proof.
  split; [split; [exact blog_hi_wf|reflexivity]|].
  apply (entry_page_after_insert
           (fun x => if String.eqb x "2" then Some 2 else None)
           "2" "Hello" "Hello how are you" "Sam" "Stuff" blog_hi);
    [exact blog_hi_wf|reflexivity].
Defined.

(** * The command-line reader of comlineapp.py *)

Lemma same_key_same_row {A B} (key : A -> B) (l : list A) (x y : A) :
  NoDup (map key l) -> In x l -> In y l -> key x = key y -> x = y.
Proof.
  induction l as [|z l IH]; simpl; intros ND Hx Hy E; [contradiction|].
  apply NoDup_cons_iff in ND; destruct ND as [Hz ND].
  destruct Hx as [->|Hx], Hy as [->|Hy]; auto.
  - exfalso; apply Hz; rewrite E; now apply in_map.
  - exfalso; apply Hz; rewrite <- E; now apply in_map.
Qed.

(** X26: on the entries of a store of a lifetime, [main] prints after its
    heading the titles of exactly the entry rows whose author id is the id
    of the author row with the requested name, in table order. *)
Theorem main_prints_titles_of_author
        (requested_author : string) (ra : Author.row) (s : db) :
  reachable s ->
  get_author_by_name requested_author s = Some ra ->
  main (get_all_entries s) requested_author
  = "Here are the entry titles associated with the author:"%string
    :: map Entry.title
         (filter (fun e => Entry.author_id e =? Author.author_id ra)
            (entries s)).
Proof.
  intros R G; apply reachable_wf in R.
  apply fetch_some in G; destruct G as [Hra Hn].
  apply String.eqb_eq in Hn.
  unfold main, get_all_entries, entry_join; f_equal.
  assert (H : forall l, incl l (entries s) ->
            map EntryDict.title
              (filter
                 (fun d => String.eqb (EntryDict.author d) requested_author)
                 (flat_map (join_rows s) l))
            = map Entry.title
                (filter
                   (fun e => Entry.author_id e =? Author.author_id ra) l)).
  { induction l as [|e l IH]; simpl; intros Hl; [reflexivity|].
    destruct (join_rows_wf s e R) as (a & t & Ha & _ & Ea & _ & ->).
    - apply Hl; now left.
    - pose proof (IH (fun x Hx => Hl x (or_intror Hx))) as IH'.
      simpl app; cbn [filter]; simpl EntryDict.author.
      destruct (Z.eqb_spec (Entry.author_id e) (Author.author_id ra))
        as [E|E].
      + assert (a = ra).
        { apply (same_key_same_row Author.author_id (authors s)); auto.
          - apply (author_pk s R).
          - congruence. }
        subst a; rewrite Hn, String.eqb_refl; cbn [map].
        now rewrite IH'.
      + destruct (String.eqb_spec (Author.name a) requested_author)
          as [En|_]; [|exact IH'].
        exfalso; apply E.
        assert (a = ra); [|congruence].
        apply (same_key_same_row Author.name (authors s)); auto.
        * apply (author_unique s R).
        * congruence. }
  apply H, incl_refl.
Qed.

Lemma main_prints_titles_of_author_blog_hi :
  (reachable blog_hi /\ get_author_by_name "Karen" blog_hi = Some karen) /\
  main (get_all_entries blog_hi) "Karen"
  = "Here are the entry titles associated with the author:"%string
    :: map Entry.title
         (filter (fun e => Entry.author_id e =? Author.author_id karen)
            (entries blog_hi)).
Proof.
  assert (R : reachable blog_hi) by (exists hi_ops; reflexivity).
  split; [split; [exact R|reflexivity]|].
  apply (main_prints_titles_of_author "Karen" karen blog_hi);
    [exact R|reflexivity].
Defined.

(** X27: when no author row has the requested name, [main] prints its
    heading and no title, whatever the store. *)
Theorem main_prints_nothing_for_unknown_author
        (requested_author : string) (s : db) :
  get_author_by_name requested_author s = None ->
  main (get_all_entries s) requested_author
  = ["Here are the entry titles associated with the author:"%string].
Proof.
  intros G; unfold main; f_equal.
  rewrite (filter_constant _ false); [reflexivity|].
  intros d Hd; apply entry_join_In in Hd.
  destruct Hd as (e & a & t & _ & Ha & _ & _ & _ & ->); simpl.
  apply not_true_is_false; intros E; apply String.eqb_eq in E.
  apply fetch_none_iff in G.
  assert (existsb (fun r => String.eqb (Author.name r) requested_author)
            (authors s) = true); [|congruence].
  apply name_known; rewrite <- E; now apply in_map.
Qed.

Lemma main_prints_nothing_for_unknown_author_blog_hi :
  get_author_by_name "Sam" blog_hi = None /\
  main (get_all_entries blog_hi) "Sam"
  = ["Here are the entry titles associated with the author:"%string].
Proof.
  split; [reflexivity|].
  apply (main_prints_nothing_for_unknown_author "Sam" blog_hi); reflexivity.
Defined.
